(** * CustomZipCreator: a shallow embedding of the stored-only ZIP writer

    The development follows [CustomZipCreator] (the custom ZIP file creator
    of the PDF-to-image converter): the CRC-32 table and checksum, the
    registration methods [addFile] and [addImageFromDataURL], the three
    record serialisers and [createZip].

    Conventions.
    - A JavaScript number is a [Z]; every number the class handles is an
      integer (lengths, offsets, 32-bit checksums), on which doubles are
      exact below 2^53.  The 32-bit operators [^], [&] and [>>>] are written
      with their [ToInt32]/[ToUint32] conversions spelled out.
    - A [Uint8Array] is a [list byte]; a write performs the modulo-256
      conversion the typed array does.
    - A JavaScript string is the list of its UTF-16 code units.
    - [TextEncoder], [atob], [String.prototype.split], [DataView] and
      [Uint8Array.prototype.set] are platform functions; they are written
      out from their standards.
    - A method that can throw returns a [result]; a method of the class runs
      in a state-and-exception monad over the object's [entries] field,
      where a throw keeps the state reached so far.
    - Allocation ([new Uint8Array(n)]) is taken to succeed for every [n];
      the largest array an engine grants is not modelled.
    - An entry keeps the array the caller passed, not a copy.  In the main
      model an entry holds the bytes its array has when it is added, which
      are the bytes at [createZip] as long as the caller leaves the array
      alone.  [Store] models the methods once more with arrays as
      references into a store: an entry refers to the caller's array, a
      program can write that array between the calls, and [createZip]
      reads it when it runs.  The properties that depend on who writes an
      array, and when, are stated there. *)

From Stdlib Require Import String Ascii Strings.Byte.
From Stdlib Require Import ZArith NArith List Lia Bool.
Import ListNotations.

Local Open Scope Z_scope.

(** ** 32-bit integer operators of JavaScript *)

Module JS.

Definition ToUint32 (x : Z) : Z := x mod 2 ^ 32.

Definition ToInt32 (x : Z) : Z :=
  let u := x mod 2 ^ 32 in
  if 2 ^ 31 <=? u then u - 2 ^ 32 else u.

(** [a ^ b] *)
Definition xor (a b : Z) : Z := ToInt32 (Z.lxor (ToInt32 a) (ToInt32 b)).

(** [a & b] *)
Definition and (a b : Z) : Z := ToInt32 (Z.land (ToInt32 a) (ToInt32 b)).

(** [a >>> n] *)
Definition ushr (a n : Z) : Z := Z.shiftr (ToUint32 a) (ToUint32 n mod 32).

(** Truthiness of a number: [0] is falsy, every other integer truthy. *)
Definition truthy (x : Z) : bool := negb (x =? 0).

(** [arr[i] = v] on an array: in range it overwrites, at [i = length] it
    appends, beyond that JavaScript pads with holes (read back as
    [undefined]); [hole] stands for such a hole. *)
Fixpoint array_put {A} (hole : A) (arr : list A) (i : nat) (v : A) : list A :=
  match i, arr with
  | O, [] => [v]
  | O, _ :: tl => v :: tl
  | S k, [] => hole :: array_put hole [] k v
  | S k, x :: tl => x :: array_put hole tl k v
  end.

End JS.

(** ** Bytes and typed arrays *)

#[warnings="-notation-for-abbreviation"]
Notation Uint8Array := (list byte) (only parsing).

(** The conversion a [Uint8Array] store applies to a number: modulo 256. *)
Definition byte_of_Z (z : Z) : byte :=
  match Byte.of_N (Z.to_N (z mod 256)) with
  | Some b => b
  | None => x00
  end.

Definition Z_of_byte (b : byte) : Z := Z.of_N (Byte.to_N b).

(** ** The checksum *)

(** Body of the inner loop of the table initialiser:
    [crc = crc & 1 ? 0xedb88320 ^ (crc >>> 1) : crc >>> 1]. *)
Definition crcTable_step (crc : Z) : Z :=
  if JS.truthy (JS.and crc 1)
  then JS.xor 0xedb88320 (JS.ushr crc 1)
  else JS.ushr crc 1.

(** The eight iterations [for (let j = 0; j < 8; j++)] started at [crc = i]. *)
Definition crcTable_entry (i : Z) : Z :=
  fold_left (fun crc (_ : nat) => crcTable_step crc) (seq 0 8) i.

(** [CustomZipCreator.crcTable]: the outer loop stores [table[i] = crc] for
    [i] from 0 to 255 into an array that starts empty. *)
Definition crcTable : list Z :=
  fold_left
    (fun table i => JS.array_put 0 table i (crcTable_entry (Z.of_nat i)))
    (seq 0 256) [].

(** [crcTable[k]] for a number [k]; an index outside the array reads
    [undefined], which [^] converts to 0. *)
Definition crcTable_get (k : Z) : Z :=
  if k <? 0 then 0 else nth (Z.to_nat k) crcTable 0.

(** One iteration of the loop of [calculateCRC32]:
    [crc = crcTable[(crc ^ byte) & 0xff] ^ (crc >>> 8)]. *)
Definition crc_update (crc : Z) (b : byte) : Z :=
  JS.xor (crcTable_get (JS.and (JS.xor crc (Z_of_byte b)) 0xff))
         (JS.ushr crc 8).

Definition calculateCRC32 (data : Uint8Array) : Z :=
  let crc := fold_left crc_update data 0xffffffff in
  JS.ushr (JS.xor crc 0xffffffff) 0.

(** *** Reference CRC-32/ISO-HDLC

    The checksum as the standard defines it, on unsigned 32-bit registers
    and bit by bit, without a table: reflected polynomial [0xEDB88320],
    initial register [0xFFFFFFFF], final xor with [0xFFFFFFFF]. *)
Module Reference.

Definition poly : Z := 0xEDB88320.

Definition bit_step (r : Z) : Z :=
  if Z.testbit r 0 then Z.lxor poly (Z.shiftr r 1) else Z.shiftr r 1.

Definition byte_step (r : Z) (b : byte) : Z :=
  Nat.iter 8 bit_step (Z.lxor r (Z_of_byte b)).

Definition crc32 (data : list byte) : Z :=
  Z.lxor (fold_left byte_step data 0xFFFFFFFF) 0xFFFFFFFF.

End Reference.

(** The ASCII bytes of a literal. *)
Definition ascii_bytes (s : string) : list byte := list_byte_of_string s.

(** ** Strings *)

(** A JavaScript string: its UTF-16 code units, each below 2^16. *)
Definition jsstring := list N.

(** The string of an ASCII literal. *)
Definition str (s : string) : jsstring := map N_of_ascii (list_ascii_of_string s).

Definition byte_of_N (n : N) : byte := byte_of_Z (Z.of_N n).

Definition is_high_surrogate (c : N) : bool := ((0xD800 <=? c) && (c <? 0xDC00))%N.
Definition is_low_surrogate (c : N) : bool := ((0xDC00 <=? c) && (c <? 0xE000))%N.

(** UTF-8 of one scalar value. *)
Definition utf8_scalar (c : N) : list byte :=
  (if c <? 0x80 then [byte_of_N c]
   else if c <? 0x800 then
     [byte_of_N (0xC0 + c / 0x40); byte_of_N (0x80 + c mod 0x40)]
   else if c <? 0x10000 then
     [byte_of_N (0xE0 + c / 0x1000); byte_of_N (0x80 + (c / 0x40) mod 0x40);
      byte_of_N (0x80 + c mod 0x40)]
   else
     [byte_of_N (0xF0 + c / 0x40000); byte_of_N (0x80 + (c / 0x1000) mod 0x40);
      byte_of_N (0x80 + (c / 0x40) mod 0x40); byte_of_N (0x80 + c mod 0x40)])%N.

(** [new TextEncoder().encode(s)]: the string is read as scalar values (a
    surrogate pair is one value, a lone surrogate becomes U+FFFD) and each
    is written in UTF-8. *)
Fixpoint TextEncoder_encode (s : jsstring) : Uint8Array :=
  match s with
  | [] => []
  | c :: rest =>
    if is_high_surrogate c then
      match rest with
      | d :: rest' =>
        if is_low_surrogate d
        then utf8_scalar (0x10000 + (c - 0xD800) * 0x400 + (d - 0xDC00))%N
             ++ TextEncoder_encode rest'
        else utf8_scalar 0xFFFD%N ++ TextEncoder_encode rest
      | [] => utf8_scalar 0xFFFD%N
      end
    else if is_low_surrogate c then utf8_scalar 0xFFFD%N ++ TextEncoder_encode rest
    else utf8_scalar c ++ TextEncoder_encode rest
  end.

(** [s.split(sep)] for a separator of one code unit. *)
Fixpoint String_split (sep : N) (s : jsstring) : list jsstring :=
  match s with
  | [] => [[]]
  | c :: rest =>
    if (c =? sep)%N then [] :: String_split sep rest
    else match String_split sep rest with
         | h :: t => (c :: h) :: t
         | [] => [[c]]
         end
  end.

Definition comma : N := 44%N.

(** *** [atob]: the forgiving base64 decoding of the HTML standard *)

Definition is_ascii_whitespace (c : N) : bool :=
  ((c =? 9) || (c =? 10) || (c =? 12) || (c =? 13) || (c =? 32))%N.

Definition equals_sign : N := 61%N.

(** Value of a code unit in the base64 alphabet. *)
Definition base64_value (c : N) : option Z :=
  (if (65 <=? c) && (c <=? 90) then Some (Z.of_N (c - 65))
   else if (97 <=? c) && (c <=? 122) then Some (Z.of_N (c - 97 + 26))
   else if (48 <=? c) && (c <=? 57) then Some (Z.of_N (c - 48 + 52))
   else if c =? 43 then Some 62%Z
   else if c =? 47 then Some 63%Z
   else None)%N.

(** Removal of one or two trailing [=]. *)
Definition strip_padding (s : jsstring) : jsstring :=
  match rev s with
  | a :: b :: tl =>
    if (a =? equals_sign)%N
    then if (b =? equals_sign)%N then rev tl else rev (b :: tl)
    else s
  | [a] => if (a =? equals_sign)%N then [] else s
  | [] => s
  end.

Fixpoint base64_values (s : jsstring) : option (list Z) :=
  match s with
  | [] => Some []
  | c :: rest =>
    match base64_value c, base64_values rest with
    | Some v, Some vs => Some (v :: vs)
    | _, _ => None
    end
  end.

(** The bit buffer: 24 bits give three bytes; a rest of 12 bits gives one
    byte and a rest of 18 bits two, the low bits being dropped. *)
Fixpoint decode_sextets (l : list Z) : list N :=
  match l with
  | a :: b :: c :: d :: rest =>
    let n := a * 2 ^ 18 + b * 2 ^ 12 + c * 2 ^ 6 + d in
    Z.to_N (n / 2 ^ 16) :: Z.to_N ((n / 2 ^ 8) mod 2 ^ 8) :: Z.to_N (n mod 2 ^ 8)
      :: decode_sextets rest
  | [a; b; c] =>
    let n := (a * 2 ^ 12 + b * 2 ^ 6 + c) / 2 ^ 2 in
    [Z.to_N (n / 2 ^ 8); Z.to_N (n mod 2 ^ 8)]
  | [a; b] => [Z.to_N ((a * 2 ^ 6 + b) / 2 ^ 4)]
  | _ => []
  end.

(** Forgiving base64 decoding; [None] is failure. *)
Definition forgiving_base64_decode (data : jsstring) : option jsstring :=
  let data := filter (fun c => negb (is_ascii_whitespace c)) data in
  let data := if (length data mod 4 =? 0)%nat then strip_padding data else data in
  if (length data mod 4 =? 1)%nat then None
  else match base64_values data with
       | None => None
       | Some vs => Some (decode_sextets vs)
       end.

(** ** Exceptions *)

Inductive JsError : Type :=
| RangeError
| TypeError
| InvalidCharacterError.

Inductive result (A : Type) : Type :=
| Ok (a : A)
| Throw (e : JsError).
Arguments Ok {A} a.
Arguments Throw {A} e.

Definition bindR {A B} (r : result A) (k : A -> result B) : result B :=
  match r with
  | Ok a => k a
  | Throw e => Throw e
  end.

Notation "x <- e ;; k" := (bindR e (fun x => k))
  (at level 61, e at next level, right associativity).

(** [atob(s)] throws an [InvalidCharacterError] DOMException on failure. *)
Definition atob (s : jsstring) : result jsstring :=
  match forgiving_base64_decode s with
  | Some r => Ok r
  | None => Throw InvalidCharacterError
  end.

(** ** Typed arrays and data views *)

Definition len (a : Uint8Array) : Z := Z.of_nat (length a).

(** [new Uint8Array(n)]: [n] zero bytes. *)
Definition Uint8Array_new (n : Z) : Uint8Array := repeat x00 (Z.to_nat n).

(** The bytes of [target] with [source] copied over them from index [pos]. *)
Definition splice (target source : Uint8Array) (pos : Z) : Uint8Array :=
  firstn (Z.to_nat pos) target ++ source
    ++ skipn (Z.to_nat pos + length source) target.

(** [target.set(source, pos)]: a [RangeError] when the source does not fit. *)
Definition Uint8Array_set (target source : Uint8Array) (pos : Z)
  : result Uint8Array :=
  if (0 <=? pos) && (pos + len source <=? len target)
  then Ok (splice target source pos)
  else Throw RangeError.

(** The [n] low bytes of [v], least significant first. *)
Fixpoint le_bytes (n : nat) (v : Z) : list byte :=
  match n with
  | O => []
  | S k => byte_of_Z v :: le_bytes k (v / 256)
  end.

Definition int_bytes (n : nat) (v : Z) (littleEndian : bool) : list byte :=
  if littleEndian then le_bytes n v else rev (le_bytes n v).

(** [view.setUint32(byteOffset, value, littleEndian)] on the view of a
    whole buffer: the value is taken modulo 2^32; a [RangeError] when the
    four bytes do not fit. *)
Definition DataView_setUint32 (buf : Uint8Array) (byteOffset value : Z)
    (littleEndian : bool) : result Uint8Array :=
  if (0 <=? byteOffset) && (byteOffset + 4 <=? len buf)
  then Ok (splice buf (int_bytes 4 (value mod 2 ^ 32) littleEndian) byteOffset)
  else Throw RangeError.

(** [view.setUint16(byteOffset, value, littleEndian)]. *)
Definition DataView_setUint16 (buf : Uint8Array) (byteOffset value : Z)
    (littleEndian : bool) : result Uint8Array :=
  if (0 <=? byteOffset) && (byteOffset + 2 <=? len buf)
  then Ok (splice buf (int_bytes 2 (value mod 2 ^ 16) littleEndian) byteOffset)
  else Throw RangeError.

(** ** The class *)

Record ZipEntry : Type := {
  filename : jsstring;
  data : Uint8Array;
  crc32 : Z
}.

(** The object: its only field is the private [entries] array. *)
Record CustomZipCreator : Type := {
  entries : list ZipEntry
}.

(** [new CustomZipCreator()] *)
Definition new_CustomZipCreator : CustomZipCreator := {| entries := [] |}.

(** A method: from the object before the call to the outcome and the object
    after it.  A throw keeps the object as it is at the throw. *)
Definition method (A : Type) : Type :=
  CustomZipCreator -> result A * CustomZipCreator.

Definition ret {A} (a : A) : method A := fun this => (Ok a, this).

Definition bindM {A B} (m : method A) (k : A -> method B) : method B :=
  fun this =>
    match m this with
    | (Ok a, this') => k a this'
    | (Throw e, this') => (Throw e, this')
    end.

(** A computation that does not touch the object. *)
Definition lift {A} (r : result A) : method A := fun this => (r, this).

(** [this.entries] *)
Definition get_entries : method (list ZipEntry) :=
  fun this => (Ok (entries this), this).

(** [this.entries.push(e)] *)
Definition entries_push (e : ZipEntry) : method unit :=
  fun this => (Ok tt, {| entries := entries this ++ [e] |}).

Notation "x <-- e ;;; k" := (bindM e (fun x => k))
  (at level 61, e at next level, right associativity).

(** What the caller passes as [data]: a string or a byte array by the
    declared type, [undefined] when [addImageFromDataURL] finds no comma. *)
Inductive DataArg : Type :=
| DataString (s : jsstring)
| DataBytes (a : Uint8Array)
| DataUndefined.

(** [base64ToUint8Array]: [atob], then each code unit stored into a byte. *)
Definition base64ToUint8Array (base64 : jsstring) : result Uint8Array :=
  binaryString <- atob base64 ;;
  Ok (map byte_of_N binaryString).

(** The call [this.calculateCRC32(fileData)] where [fileData] may hold
    [undefined]: reading [data.length] then throws a [TypeError]. *)
Definition call_calculateCRC32 (fileData : option Uint8Array) : result Z :=
  match fileData with
  | Some a => Ok (calculateCRC32 a)
  | None => Throw TypeError
  end.

(** A [ZipEntry] object literal stores the value of [fileData] whatever it
    is; it is only reached with an array. *)
Definition addFile (name : jsstring) (d : DataArg) (isBase64 : bool)
  : method unit :=
  fileData <-- lift
    match d with
    | DataString s =>
      if isBase64
      then (a <- base64ToUint8Array s ;; Ok (Some a))
      else Ok (Some (TextEncoder_encode s))
    | DataBytes a => Ok (Some a)
    | DataUndefined => Ok None
    end ;;;
  crc <-- lift (call_calculateCRC32 fileData) ;;;
  match fileData with
  | Some a => entries_push {| filename := name; data := a; crc32 := crc |}
  | None => lift (Throw TypeError)
  end.

Definition addImageFromDataURL (name : jsstring) (dataURL : jsstring)
  : method unit :=
  let base64Data := nth_error (String_split comma dataURL) 1 in
  match base64Data with
  | Some s => addFile name (DataString s) true
  | None => addFile name DataUndefined true
  end.

(** *** The three records *)

Definition createLocalFileHeader (name : jsstring) (fileSize crc : Z)
  : result Uint8Array :=
  let filenameBytes := TextEncoder_encode name in
  let header := Uint8Array_new (30 + len filenameBytes) in
  header <- DataView_setUint32 header 0 0x04034b50 true ;;
  header <- DataView_setUint16 header 4 20 true ;;
  header <- DataView_setUint16 header 6 0 true ;;
  header <- DataView_setUint16 header 8 0 true ;;
  header <- DataView_setUint16 header 10 0 true ;;
  header <- DataView_setUint16 header 12 0 true ;;
  header <- DataView_setUint32 header 14 crc true ;;
  header <- DataView_setUint32 header 18 fileSize true ;;
  header <- DataView_setUint32 header 22 fileSize true ;;
  header <- DataView_setUint16 header 26 (len filenameBytes) true ;;
  header <- DataView_setUint16 header 28 0 true ;;
  Uint8Array_set header filenameBytes 30.

Definition createCentralDirectoryEntry (name : jsstring)
    (fileSize crc offset : Z) : result Uint8Array :=
  let filenameBytes := TextEncoder_encode name in
  let entry := Uint8Array_new (46 + len filenameBytes) in
  entry <- DataView_setUint32 entry 0 0x02014b50 true ;;
  entry <- DataView_setUint16 entry 4 20 true ;;
  entry <- DataView_setUint16 entry 6 20 true ;;
  entry <- DataView_setUint16 entry 8 0 true ;;
  entry <- DataView_setUint16 entry 10 0 true ;;
  entry <- DataView_setUint16 entry 12 0 true ;;
  entry <- DataView_setUint16 entry 14 0 true ;;
  entry <- DataView_setUint32 entry 16 crc true ;;
  entry <- DataView_setUint32 entry 20 fileSize true ;;
  entry <- DataView_setUint32 entry 24 fileSize true ;;
  entry <- DataView_setUint16 entry 28 (len filenameBytes) true ;;
  entry <- DataView_setUint16 entry 30 0 true ;;
  entry <- DataView_setUint16 entry 32 0 true ;;
  entry <- DataView_setUint16 entry 34 0 true ;;
  entry <- DataView_setUint16 entry 36 0 true ;;
  entry <- DataView_setUint32 entry 38 0 true ;;
  entry <- DataView_setUint32 entry 42 offset true ;;
  Uint8Array_set entry filenameBytes 46.

Definition createEndOfCentralDirectory
    (totalEntries centralDirectorySize centralDirectoryOffset : Z)
  : result Uint8Array :=
  let record := Uint8Array_new 22 in
  record <- DataView_setUint32 record 0 0x06054b50 true ;;
  record <- DataView_setUint16 record 4 0 true ;;
  record <- DataView_setUint16 record 6 0 true ;;
  record <- DataView_setUint16 record 8 totalEntries true ;;
  record <- DataView_setUint16 record 10 totalEntries true ;;
  record <- DataView_setUint32 record 12 centralDirectorySize true ;;
  record <- DataView_setUint32 record 16 centralDirectoryOffset true ;;
  DataView_setUint16 record 20 0 true.

(** *** [createZip] *)

Record Blob : Type := {
  blob_bytes : Uint8Array;
  blob_type : string
}.

(** A loop whose body may throw. *)
Fixpoint for_each {A S} (body : S -> A -> result S) (l : list A) (s : S)
  : result S :=
  match l with
  | [] => Ok s
  | x :: tl => s' <- body s x ;; for_each body tl s'
  end.

(** The variables the first loop updates. *)
Record layout : Type := {
  zipParts : list Uint8Array;
  centralDirectory : list Uint8Array;
  offset : Z
}.

(** Body of [for (let i = 0; i < this.entries.length; i++)]. *)
Definition local_pass (st : layout) (entry : ZipEntry) : result layout :=
  let fileData := data entry in
  localHeader <- createLocalFileHeader (filename entry) (len fileData) (crc32 entry) ;;
  let zipParts := zipParts st ++ [localHeader] in
  let zipParts := zipParts ++ [fileData] in
  centralEntry <- createCentralDirectoryEntry
                    (filename entry) (len fileData) (crc32 entry) (offset st) ;;
  Ok {| zipParts := zipParts;
        centralDirectory := centralDirectory st ++ [centralEntry];
        offset := offset st + (len localHeader + len fileData) |}.

(** Body of [for (const entry of centralDirectory)], on the pair of
    [zipParts] and [centralDirectorySize]. *)
Definition central_pass (st : list Uint8Array * Z) (entry : Uint8Array)
  : result (list Uint8Array * Z) :=
  Ok (fst st ++ [entry], snd st + len entry).

(** Body of [for (const part of zipParts)], on the pair of [zipArray] and
    [pos]. *)
Definition copy_pass (st : Uint8Array * Z) (part : Uint8Array)
  : result (Uint8Array * Z) :=
  zipArray <- Uint8Array_set (fst st) part (snd st) ;;
  Ok (zipArray, snd st + len part).

(** The body of [createZip] on the entries it reads. *)
Definition createZip_body (this_entries : list ZipEntry) : result Blob :=
  st <- for_each local_pass this_entries
          {| zipParts := []; centralDirectory := []; offset := 0 |} ;;
  let centralDirectoryStart := offset st in
  cd <- for_each central_pass (centralDirectory st) (zipParts st, 0) ;;
  let '(zipParts, centralDirectorySize) := cd in
  endRecord <- createEndOfCentralDirectory
                 (Z.of_nat (length this_entries))
                 centralDirectorySize centralDirectoryStart ;;
  let zipParts := zipParts ++ [endRecord] in
  let totalSize := fold_left (fun sum part => sum + len part) zipParts 0 in
  let zipArray := Uint8Array_new totalSize in
  out <- for_each copy_pass zipParts (zipArray, 0) ;;
  Ok {| blob_bytes := fst out; blob_type := "application/zip" |}.

(** [createZip]: the promise it returns is settled with the outcome of the
    body, which contains no [await]. *)
Definition createZip : method Blob :=
  es <-- get_entries ;;;
  lift (createZip_body es).

(** ** Reading a finished buffer *)

(** The unsigned little-endian integer held by the [n] bytes from index
    [pos]; [None] when the buffer is too short. *)
Fixpoint read_le (n : nat) (buf : list byte) : option Z :=
  match n with
  | O => Some 0
  | S k =>
    match buf with
    | [] => None
    | b :: tl =>
      match read_le k tl with
      | Some v => Some (Z_of_byte b + 256 * v)
      | None => None
      end
    end
  end.

Definition read_u32 (buf : list byte) (pos : nat) : option Z :=
  read_le 4 (skipn pos buf).

Definition read_u16 (buf : list byte) (pos : nat) : option Z :=
  read_le 2 (skipn pos buf).

(** The [n] bytes of the buffer from index [pos]. *)
Definition slice (buf : list byte) (pos n : nat) : list byte :=
  firstn n (skipn pos buf).

(** ** [createZip] on a store of arrays

    The same method with typed arrays as references into a store, to see
    which arrays it writes.  An entry holds a reference to its payload (the
    array the caller passed); [zipParts] holds references, among them the
    payload references themselves; [DataView] and [set] write in place. *)

Module Store.

(** A reference is an index into the arrays allocated so far. *)
#[warnings="-notation-for-abbreviation"]
Notation ref := nat (only parsing).
#[warnings="-notation-for-abbreviation"]
Notation heap := (list Uint8Array) (only parsing).

Record EntryObject : Type := {
  entry_filename : jsstring;
  entry_data : ref;
  entry_crc32 : Z
}.

(** The arrays and the [entries] of the object. *)
Definition state : Type := heap * list EntryObject.

Definition M (A : Type) : Type := state -> result A * state.

Definition ret {A} (a : A) : M A := fun s => (Ok a, s).

Definition bind {A B} (m : M A) (k : A -> M B) : M B :=
  fun s =>
    match m s with
    | (Ok a, s') => k a s'
    | (Throw e, s') => (Throw e, s')
    end.

Notation "x <~ e ;; k" := (bind e (fun x => k))
  (at level 61, e at next level, right associativity).

(** [this.entries] *)
Definition get_entries : M (list EntryObject) := fun s => (Ok (snd s), s).

(** A fresh array with the given bytes. *)
Definition new_array (bytes : Uint8Array) : M ref :=
  fun s => (Ok (length (fst s)), (fst s ++ [bytes], snd s)).

(** The bytes of an array.  Every reference a program holds is allocated;
    the [TypeError] stands for the case that cannot arise. *)
Definition contents (r : ref) : M Uint8Array :=
  fun s =>
    match nth_error (fst s) r with
    | Some b => (Ok b, s)
    | None => (Throw TypeError, s)
    end.

(** [a.length] *)
Definition length_of (r : ref) : M Z := b <~ contents r ;; ret (len b).

Fixpoint store {A} (l : list A) (i : nat) (v : A) : list A :=
  match l, i with
  | [], _ => []
  | _ :: tl, O => v :: tl
  | x :: tl, S k => x :: store tl k v
  end.

(** An in-place write to the array [r]. *)
Definition modify (r : ref) (f : Uint8Array -> result Uint8Array) : M unit :=
  fun s =>
    match nth_error (fst s) r with
    | Some b =>
      match f b with
      | Ok b' => (Ok tt, (store (fst s) r b', snd s))
      | Throw e => (Throw e, s)
      end
    | None => (Throw TypeError, s)
    end.

(** [new Uint8Array(n)] *)
Definition Uint8Array_new (n : Z) : M ref := new_array (Uint8Array_new n).

(** [new TextEncoder().encode(s)] *)
Definition TextEncoder_encode (s : jsstring) : M ref :=
  new_array (TextEncoder_encode s).

(** [new DataView(a.buffer)] views the memory of [a] itself. *)
Definition DataView_setUint32 (view : ref) (byteOffset value : Z)
    (littleEndian : bool) : M unit :=
  modify view (fun b => DataView_setUint32 b byteOffset value littleEndian).

Definition DataView_setUint16 (view : ref) (byteOffset value : Z)
    (littleEndian : bool) : M unit :=
  modify view (fun b => DataView_setUint16 b byteOffset value littleEndian).

(** [target.set(source, pos)] *)
Definition Uint8Array_set (target source : ref) (pos : Z) : M unit :=
  src <~ contents source ;;
  modify target (fun b => Uint8Array_set b src pos).

Definition createLocalFileHeader (name : jsstring) (fileSize crc : Z) : M ref :=
  filenameBytes <~ TextEncoder_encode name ;;
  n <~ length_of filenameBytes ;;
  header <~ Uint8Array_new (30 + n) ;;
  _ <~ DataView_setUint32 header 0 0x04034b50 true ;;
  _ <~ DataView_setUint16 header 4 20 true ;;
  _ <~ DataView_setUint16 header 6 0 true ;;
  _ <~ DataView_setUint16 header 8 0 true ;;
  _ <~ DataView_setUint16 header 10 0 true ;;
  _ <~ DataView_setUint16 header 12 0 true ;;
  _ <~ DataView_setUint32 header 14 crc true ;;
  _ <~ DataView_setUint32 header 18 fileSize true ;;
  _ <~ DataView_setUint32 header 22 fileSize true ;;
  n <~ length_of filenameBytes ;;
  _ <~ DataView_setUint16 header 26 n true ;;
  _ <~ DataView_setUint16 header 28 0 true ;;
  _ <~ Uint8Array_set header filenameBytes 30 ;;
  ret header.

Definition createCentralDirectoryEntry (name : jsstring)
    (fileSize crc offset : Z) : M ref :=
  filenameBytes <~ TextEncoder_encode name ;;
  n <~ length_of filenameBytes ;;
  entry <~ Uint8Array_new (46 + n) ;;
  _ <~ DataView_setUint32 entry 0 0x02014b50 true ;;
  _ <~ DataView_setUint16 entry 4 20 true ;;
  _ <~ DataView_setUint16 entry 6 20 true ;;
  _ <~ DataView_setUint16 entry 8 0 true ;;
  _ <~ DataView_setUint16 entry 10 0 true ;;
  _ <~ DataView_setUint16 entry 12 0 true ;;
  _ <~ DataView_setUint16 entry 14 0 true ;;
  _ <~ DataView_setUint32 entry 16 crc true ;;
  _ <~ DataView_setUint32 entry 20 fileSize true ;;
  _ <~ DataView_setUint32 entry 24 fileSize true ;;
  n <~ length_of filenameBytes ;;
  _ <~ DataView_setUint16 entry 28 n true ;;
  _ <~ DataView_setUint16 entry 30 0 true ;;
  _ <~ DataView_setUint16 entry 32 0 true ;;
  _ <~ DataView_setUint16 entry 34 0 true ;;
  _ <~ DataView_setUint16 entry 36 0 true ;;
  _ <~ DataView_setUint32 entry 38 0 true ;;
  _ <~ DataView_setUint32 entry 42 offset true ;;
  _ <~ Uint8Array_set entry filenameBytes 46 ;;
  ret entry.

Definition createEndOfCentralDirectory
    (totalEntries centralDirectorySize centralDirectoryOffset : Z) : M ref :=
  record <~ Uint8Array_new 22 ;;
  _ <~ DataView_setUint32 record 0 0x06054b50 true ;;
  _ <~ DataView_setUint16 record 4 0 true ;;
  _ <~ DataView_setUint16 record 6 0 true ;;
  _ <~ DataView_setUint16 record 8 totalEntries true ;;
  _ <~ DataView_setUint16 record 10 totalEntries true ;;
  _ <~ DataView_setUint32 record 12 centralDirectorySize true ;;
  _ <~ DataView_setUint32 record 16 centralDirectoryOffset true ;;
  _ <~ DataView_setUint16 record 20 0 true ;;
  ret record.

Fixpoint for_each {A S} (body : S -> A -> M S) (l : list A) (s : S) : M S :=
  match l with
  | [] => ret s
  | x :: tl => s' <~ body s x ;; for_each body tl s'
  end.

Record layout : Type := {
  zipParts : list ref;
  centralDirectory : list ref;
  offset : Z
}.

Definition local_pass (st : layout) (entry : EntryObject) : M layout :=
  let fileData := entry_data entry in
  n <~ length_of fileData ;;
  localHeader <~ createLocalFileHeader (entry_filename entry) n (entry_crc32 entry) ;;
  let zipParts := zipParts st ++ [localHeader] in
  let zipParts := zipParts ++ [fileData] in
  n <~ length_of fileData ;;
  centralEntry <~ createCentralDirectoryEntry
                    (entry_filename entry) n (entry_crc32 entry) (offset st) ;;
  h <~ length_of localHeader ;;
  n <~ length_of fileData ;;
  ret {| zipParts := zipParts;
         centralDirectory := centralDirectory st ++ [centralEntry];
         offset := offset st + (h + n) |}.

Definition central_pass (st : list ref * Z) (entry : ref) : M (list ref * Z) :=
  n <~ length_of entry ;;
  ret (fst st ++ [entry], snd st + n).

Definition size_pass (sum : Z) (part : ref) : M Z :=
  n <~ length_of part ;;
  ret (sum + n).

Definition copy_pass (zipArray : ref) (pos : Z) (part : ref) : M Z :=
  _ <~ Uint8Array_set zipArray part pos ;;
  n <~ length_of part ;;
  ret (pos + n).

(** [new Blob([zipArray], { type })] copies the bytes of [zipArray]. *)
Definition new_Blob (part : ref) (type : string) : M Blob :=
  b <~ contents part ;;
  ret {| blob_bytes := b; blob_type := type |}.

Definition createZip : M Blob :=
  es <~ get_entries ;;
  st <~ for_each local_pass es
          {| zipParts := []; centralDirectory := []; offset := 0 |} ;;
  let centralDirectoryStart := offset st in
  cd <~ for_each central_pass (centralDirectory st) (zipParts st, 0) ;;
  let '(zipParts, centralDirectorySize) := cd in
  endRecord <~ createEndOfCentralDirectory
                 (Z.of_nat (length es)) centralDirectorySize
                 centralDirectoryStart ;;
  let zipParts := zipParts ++ [endRecord] in
  totalSize <~ for_each size_pass zipParts 0 ;;
  zipArray <~ Uint8Array_new totalSize ;;
  _ <~ for_each (copy_pass zipArray) zipParts 0 ;;
  new_Blob zipArray "application/zip".

(** The entry as a value: the bytes its payload reference points to. *)
Definition entry_value (h : heap) (e : EntryObject) : ZipEntry :=
  {| filename := entry_filename e;
     data := nth (entry_data e) h [];
     crc32 := entry_crc32 e |}.

(** The object as a value. *)
Definition object_value (s : state) : CustomZipCreator :=
  {| entries := map (entry_value (fst s)) (snd s) |}.

(** Every payload reference is allocated. *)
Definition well_formed (s : state) : Prop :=
  Forall (fun e => (entry_data e < length (fst s))%nat) (snd s).

(** The references [rs] point, in this order, to the arrays [bs]. *)
Definition resolves (h : heap) (rs : list ref) (bs : list Uint8Array) : Prop :=
  Forall2 (fun r b => nth_error h r = Some b) rs bs.

(** Two entries sharing one payload array. *)
Definition shared_payload : state :=
  ([ [x89; x50; x4e; x47] ],
   [ {| entry_filename := str "a.png"; entry_data := 0%nat; entry_crc32 := 0x5BEBBEA5 |};
     {| entry_filename := str "b.png"; entry_data := 0%nat; entry_crc32 := 0x5BEBBEA5 |} ]).

(** *** Registration on the store

    [addFile] given an array keeps that very array ([fileData = data]): the
    entry refers to memory the caller still holds and can write. *)

Definition lift {A} (r : result A) : M A := fun s => (r, s).

(** [this.entries.push(e)] *)
Definition entries_push (e : EntryObject) : M unit :=
  fun s => (Ok tt, (fst s, snd s ++ [e])).

(** [a[i] = v] on a typed array: the value is stored modulo 256, and a
    write beyond the end does nothing. *)
Definition write (a : ref) (i : nat) (v : Z) : M unit :=
  modify a (fun b => Ok (store b i (byte_of_Z v))).

(** [base64ToUint8Array]: a new array of [binaryString.length] bytes, filled
    by the loop [bytes[i] = binaryString.charCodeAt(i)]. *)
Definition base64ToUint8Array (base64 : jsstring) : M ref :=
  binaryString <~ lift (atob base64) ;;
  bytes <~ Uint8Array_new (Z.of_nat (length binaryString)) ;;
  _ <~ for_each (fun i c => _ <~ write bytes i (Z.of_N c) ;; ret (S i))
         binaryString 0%nat ;;
  ret bytes.

(** The entry stores the checksum of the bytes its array holds in [h]. *)
Definition checksum_current (h : heap) (e : EntryObject) : Prop :=
  exists b,
    nth_error h (entry_data e) = Some b /\ entry_crc32 e = calculateCRC32 b.

(** [calculateCRC32(data)] reads the array and writes nothing. *)
Definition calculateCRC32 (data : ref) : M Z :=
  b <~ contents data ;;
  ret (calculateCRC32 b).

(** What the caller passes as [data]: a string, an array of its own, or
    [undefined] when [addImageFromDataURL] finds no comma. *)
Inductive DataArg : Type :=
| DataString (s : jsstring)
| DataBytes (a : ref)
| DataUndefined.

Definition addFile (filename : jsstring) (data : DataArg) (isBase64 : bool)
  : M unit :=
  fileData <~
    match data with
    | DataString s =>
      if isBase64
      then (a <~ base64ToUint8Array s ;; ret (Some a))
      else (a <~ TextEncoder_encode s ;; ret (Some a))
    | DataBytes a => ret (Some a)
    | DataUndefined => ret None
    end ;;
  crc32 <~
    match fileData with
    | Some a => calculateCRC32 a
    | None => lift (Throw TypeError)
    end ;;
  match fileData with
  | Some a =>
    entries_push {| entry_filename := filename; entry_data := a;
                    entry_crc32 := crc32 |}
  | None => lift (Throw TypeError)
  end.

Definition addImageFromDataURL (filename dataURL : jsstring) : M unit :=
  let base64Data := nth_error (String_split comma dataURL) 1 in
  match base64Data with
  | Some s => addFile filename (DataString s) true
  | None => addFile filename DataUndefined true
  end.

(** *** Programs that use the object

    What the code around the object can do, one step at a time: call a
    public method, make an array of its own, or write a byte of an array.
    A program writes the arrays it holds; the step is allowed on every
    array of the store, which covers them.  A typed array keeps its length
    (buffers that are resized or detached are not modelled). *)
Inductive Step : Type :=
| AddFile (filename : jsstring) (data : DataArg) (isBase64 : bool)
| AddImageFromDataURL (filename dataURL : jsstring)
| CreateZip
| NewArray (bytes : Uint8Array)
| Write (a : ref) (i : nat) (v : Z).

(** The store after a step; after a call that throws, the store as the
    throw leaves it. *)
Definition step (c : Step) (s : state) : state :=
  match c with
  | AddFile filename data isBase64 => snd (addFile filename data isBase64 s)
  | AddImageFromDataURL filename dataURL =>
    snd (addImageFromDataURL filename dataURL s)
  | CreateZip => snd (createZip s)
  | NewArray bytes => snd (new_array bytes s)
  | Write a i v => snd (write a i v s)
  end.

Definition run (p : list Step) (s : state) : state :=
  fold_left (fun s c => step c s) p s.

(** [new CustomZipCreator()] in a program that has made no array yet. *)
Definition new_CustomZipCreator : state := ([], []).

(** The step writes the array [a]. *)
Definition writes (a : ref) (c : Step) : bool :=
  match c with
  | Write a' _ _ => Nat.eqb a' a
  | _ => false
  end.

(** No step of the program writes the array [a]. *)
Definition unwritten (a : ref) (p : list Step) : bool :=
  negb (existsb (writes a) p).

(** A program: an array of four bytes is made and added under the name
    "m", then its first byte is overwritten. *)
Definition write_after_add : list Step :=
  [ NewArray [x01; x02; x03; x04];
    AddFile (str "m") (DataBytes 0%nat) false;
    Write 0%nat 0%nat 0xff ].

(** A program: "a.png" is added from the caller's array, "b.txt" from a
    string; the caller then overwrites a byte of its array. *)
Definition two_files_before : list Step :=
  [ NewArray [x89; x50];
    AddFile (str "a.png") (DataBytes 0%nat) false ].

Definition two_files_later : list Step :=
  [ Write 0%nat 1%nat 0x51; CreateZip ].

End Store.

(** The argument of [addFile] as a value: an array stands for the bytes it
    holds at the call. *)
Definition data_value (h : list Uint8Array) (d : Store.DataArg) : DataArg :=
  match d with
  | Store.DataString s => DataString s
  | Store.DataBytes a =>
    match nth_error h a with
    | Some b => DataBytes b
    | None => DataUndefined
    end
  | Store.DataUndefined => DataUndefined
  end.

(** ** The records in closed form

    What the serialisers write, as plain concatenations of fields; the
    properties below prove that the methods produce exactly these bytes. *)

Definition local_header_fields (fileSize crc nameLen : Z) : list byte :=
  le_bytes 4 0x04034b50 ++ le_bytes 2 20 ++ le_bytes 2 0 ++ le_bytes 2 0
  ++ le_bytes 2 0 ++ le_bytes 2 0 ++ le_bytes 4 (crc mod 2 ^ 32)
  ++ le_bytes 4 (fileSize mod 2 ^ 32) ++ le_bytes 4 (fileSize mod 2 ^ 32)
  ++ le_bytes 2 (nameLen mod 2 ^ 16) ++ le_bytes 2 0.

Definition central_record_fields (fileSize crc nameLen off : Z) : list byte :=
  le_bytes 4 0x02014b50 ++ le_bytes 2 20 ++ le_bytes 2 20 ++ le_bytes 2 0
  ++ le_bytes 2 0 ++ le_bytes 2 0 ++ le_bytes 2 0 ++ le_bytes 4 (crc mod 2 ^ 32)
  ++ le_bytes 4 (fileSize mod 2 ^ 32) ++ le_bytes 4 (fileSize mod 2 ^ 32)
  ++ le_bytes 2 (nameLen mod 2 ^ 16) ++ le_bytes 2 0 ++ le_bytes 2 0
  ++ le_bytes 2 0 ++ le_bytes 2 0 ++ le_bytes 4 0 ++ le_bytes 4 (off mod 2 ^ 32).

Definition end_record (totalEntries cdSize cdOffset : Z) : list byte :=
  le_bytes 4 0x06054b50 ++ le_bytes 2 0 ++ le_bytes 2 0
  ++ le_bytes 2 (totalEntries mod 2 ^ 16) ++ le_bytes 2 (totalEntries mod 2 ^ 16)
  ++ le_bytes 4 (cdSize mod 2 ^ 32) ++ le_bytes 4 (cdOffset mod 2 ^ 32)
  ++ le_bytes 2 0.

Definition name_bytes (e : ZipEntry) : Uint8Array := TextEncoder_encode (filename e).

Definition local_header (e : ZipEntry) : list byte :=
  local_header_fields (len (data e)) (crc32 e) (len (name_bytes e)) ++ name_bytes e.

Definition central_record (e : ZipEntry) (off : Z) : list byte :=
  central_record_fields (len (data e)) (crc32 e) (len (name_bytes e)) off
  ++ name_bytes e.

(** A local header followed by the payload. *)
Definition local_record (e : ZipEntry) : list byte := local_header e ++ data e.

Definition local_section (es : list ZipEntry) : list byte :=
  flat_map local_record es.

(** The central directory of [es] when the first local header is at [off]. *)
Fixpoint central_section (off : Z) (es : list ZipEntry) : list byte :=
  match es with
  | [] => []
  | e :: tl => central_record e off ++ central_section (off + len (local_record e)) tl
  end.

Definition archive (es : list ZipEntry) : list byte :=
  local_section es ++ central_section 0 es
  ++ end_record (Z.of_nat (length es)) (len (central_section 0 es))
       (len (local_section es)).

(** The parts the first loop of [createZip] pushes. *)
Definition local_parts (es : list ZipEntry) : list Uint8Array :=
  flat_map (fun e => [local_header e; data e]) es.

Fixpoint central_parts (off : Z) (es : list ZipEntry) : list Uint8Array :=
  match es with
  | [] => []
  | e :: tl => central_record e off :: central_parts (off + len (local_record e)) tl
  end.

(** ** Where the records of an entry lie in the finished buffer *)

Definition local_record_size (e : ZipEntry) : nat :=
  30 + length (name_bytes e) + length (data e).

Definition central_record_size (e : ZipEntry) : nat :=
  46 + length (name_bytes e).

Definition sum_sizes (size : ZipEntry -> nat) (es : list ZipEntry) : nat :=
  list_sum (map size es).

(** Byte index at which the local header of entry number [i] begins: the
    number of bytes taken by the local records before it. *)
Definition local_header_index (es : list ZipEntry) (i : nat) : nat :=
  sum_sizes local_record_size (firstn i es).

(** Byte index at which the central directory record of entry number [i]
    begins: after all local records and the central records before it. *)
Definition central_record_index (es : list ZipEntry) (i : nat) : nat :=
  sum_sizes local_record_size es + sum_sizes central_record_size (firstn i es).

(** ** Outcomes of a registration *)

(** The object after [this.entries.push(e)]. *)
Definition push (this : CustomZipCreator) (e : ZipEntry) : CustomZipCreator :=
  {| entries := entries this ++ [e] |}.

(** The entry [addFile] builds from a name and the payload bytes. *)
Definition entry_of (name : jsstring) (a : Uint8Array) : ZipEntry :=
  {| filename := name; data := a; crc32 := calculateCRC32 a |}.


(** ** Objects that the public methods can build

    The objects that calls of the public methods alone lead to, every entry
    holding the bytes its array had when it was added.  These are the
    objects of the programs that write no array; what a program that writes
    arrays reaches is described on [Store]. *)

Inductive reachable : CustomZipCreator -> Prop :=
| reach_new : reachable new_CustomZipCreator
| reach_addFile this name d isBase64 this' :
    reachable this ->
    addFile name d isBase64 this = (Ok tt, this') ->
    reachable this'
| reach_addImageFromDataURL this name dataURL this' :
    reachable this ->
    addImageFromDataURL name dataURL this = (Ok tt, this') ->
    reachable this'
| reach_createZip this blob this' :
    reachable this ->
    createZip this = (Ok blob, this') ->
    reachable this'.

(** ** Sample objects *)

(** Two small files, one given as bytes and one as text. *)
Definition two_files : CustomZipCreator :=
  snd (addFile (str "b.txt") (DataString (str "hi")) false
         (snd (addFile (str "a.png") (DataBytes [x89; x50]) false
                 new_CustomZipCreator))).

(** A payload of 2^32 zero bytes: one more than a 32-bit field can count. *)
Definition huge_payload : Uint8Array := repeat x00 (Z.to_nat 4294967296).

(** The huge payload alone. *)
Definition huge_alone : CustomZipCreator :=
  snd (addFile (str "a") (DataBytes huge_payload) false new_CustomZipCreator).

(** The huge payload, then an empty file. *)
Definition huge_then_small : CustomZipCreator :=
  snd (addFile (str "b") (DataBytes []) false huge_alone).

(** A name of 65536 letters [a], which is 65536 bytes in UTF-8. *)
Definition long_name : jsstring := repeat 97%N (Z.to_nat 65536).

(** The scenario of one page: "page_1.png" with the first four bytes of the
    PNG signature. *)
Definition page_payload : Uint8Array := [x89; x50; x4e; x47].

Definition one_page : CustomZipCreator :=
  snd (addFile (str "page_1.png") (DataBytes page_payload) false
         new_CustomZipCreator).



(** * Properties *)

(** ** Bytes *)

Lemma Z_of_byte_range (b : byte) : 0 <= Z_of_byte b < 256.
Proof.
  unfold Z_of_byte. pose proof (Byte.to_N_bounded b). lia.
Qed.

Lemma Z_of_byte_of_Z (z : Z) : Z_of_byte (byte_of_Z z) = z mod 256.
Proof.
  unfold Z_of_byte, byte_of_Z.
  assert (Hr : 0 <= z mod 256 < 256) by (apply Z.mod_pos_bound; lia).
  destruct (Byte.of_N (Z.to_N (z mod 256))) as [b|] eqn:E.
  - apply Byte.to_of_N in E. rewrite E. lia.
  - apply Byte.of_N_None_iff in E. lia.
Qed.

(** ** The 32-bit operators, seen through [ToUint32] *)

Module JSFacts.
Import JS.

Lemma ToUint32_range x : 0 <= ToUint32 x < 2 ^ 32.
Proof. unfold ToUint32. apply Z.mod_pos_bound. lia. Qed.

Lemma ToUint32_small x : 0 <= x < 2 ^ 32 -> ToUint32 x = x.
Proof. intros. unfold ToUint32. apply Z.mod_small. assumption. Qed.

Lemma ToUint32_idem x : ToUint32 (ToUint32 x) = ToUint32 x.
Proof. apply ToUint32_small, ToUint32_range. Qed.

Lemma ToUint32_ToInt32 x : ToUint32 (ToInt32 x) = ToUint32 x.
Proof.
  unfold ToInt32, ToUint32.
  destruct (2 ^ 31 <=? x mod 2 ^ 32).
  - rewrite Zminus_mod_idemp_l.
    replace (x - 2 ^ 32) with (x + (-1) * 2 ^ 32) by lia.
    apply Z.mod_add. lia.
  - apply Z.mod_mod. lia.
Qed.

Lemma ToInt32_small x : 0 <= x < 2 ^ 31 -> ToInt32 x = x.
Proof.
  intros H. unfold ToInt32. rewrite Z.mod_small by lia.
  destruct (2 ^ 31 <=? x) eqn:E; [apply Z.leb_le in E; lia | reflexivity].
Qed.

Lemma testbit_ToUint32 x i :
  Z.testbit (ToUint32 x) i = (i <? 32) && Z.testbit x i.
Proof. unfold ToUint32. apply Z.testbit_mod_pow2. lia. Qed.

Lemma ToUint32_lxor a b :
  ToUint32 (Z.lxor a b) = Z.lxor (ToUint32 a) (ToUint32 b).
Proof.
  apply Z.bits_inj'. intros i _.
  rewrite Z.lxor_spec, !testbit_ToUint32, Z.lxor_spec.
  destruct (i <? 32); reflexivity.
Qed.

Lemma ToUint32_land a b :
  ToUint32 (Z.land a b) = Z.land (ToUint32 a) (ToUint32 b).
Proof.
  apply Z.bits_inj'. intros i _.
  rewrite Z.land_spec, !testbit_ToUint32, Z.land_spec.
  destruct (i <? 32); simpl; [reflexivity|].
  reflexivity.
Qed.

Lemma ToUint32_xor a b : ToUint32 (xor a b) = Z.lxor (ToUint32 a) (ToUint32 b).
Proof.
  unfold xor. rewrite ToUint32_ToInt32, ToUint32_lxor, !ToUint32_ToInt32.
  reflexivity.
Qed.

Lemma ToUint32_and a b : ToUint32 (and a b) = Z.land (ToUint32 a) (ToUint32 b).
Proof.
  unfold and. rewrite ToUint32_ToInt32, ToUint32_land, !ToUint32_ToInt32.
  reflexivity.
Qed.

Lemma land_low_range x n : 0 <= n -> 0 <= Z.land x (Z.ones n) < 2 ^ n.
Proof. intros. rewrite Z.land_ones by assumption. apply Z.mod_pos_bound. lia. Qed.

(** [x & m] for a mask [m = 2^n - 1] with [n <= 31] is the plain
    non-negative number. *)
Lemma and_mask x n :
  0 <= n <= 31 -> and x (Z.ones n) = Z.land (ToUint32 x) (Z.ones n).
Proof.
  intros Hn.
  assert (Hp : 2 ^ n <= 2 ^ 31) by (apply Z.pow_le_mono_r; lia).
  assert (Hn0 : 0 <= n) by lia.
  pose proof (land_low_range (ToUint32 x) n Hn0) as Hr.
  unfold and.
  rewrite (ToInt32_small (Z.ones n)) by (rewrite Z.ones_equiv; lia).
  assert (E : Z.land (ToInt32 x) (Z.ones n) = Z.land (ToUint32 x) (Z.ones n)).
  { apply Z.bits_inj'. intros i Hi.
    rewrite !Z.land_spec, Z.testbit_ones_nonneg by lia.
    destruct (i <? n) eqn:Ei; [|rewrite !andb_false_r; reflexivity].
    apply Z.ltb_lt in Ei. rewrite !andb_true_r.
    rewrite <- (ToUint32_ToInt32 x), testbit_ToUint32.
    replace (i <? 32) with true by (symmetry; apply Z.ltb_lt; lia).
    reflexivity. }
  rewrite E. apply ToInt32_small. lia.
Qed.

Lemma ushr_spec a k : 0 <= k < 32 -> ushr a k = Z.shiftr (ToUint32 a) k.
Proof.
  intros. unfold ushr. rewrite (ToUint32_small k) by lia.
  rewrite Z.mod_small by lia. reflexivity.
Qed.

Lemma shiftr_range x k : 0 <= k -> 0 <= x < 2 ^ 32 -> 0 <= Z.shiftr x k < 2 ^ 32.
Proof.
  intros Hk Hx. rewrite Z.shiftr_div_pow2 by assumption.
  assert (0 < 2 ^ k) by (apply Z.pow_pos_nonneg; lia).
  split; [apply Z.div_pos; lia|].
  apply Z.le_lt_trans with x; [|lia].
  apply Z.div_le_upper_bound; nia.
Qed.

End JSFacts.

(** ** The table-driven checksum refines the bitwise reference *)

Section Checksum.
Import JS JSFacts.

Lemma truthy_and_1 c : truthy (and c 1) = Z.testbit (ToUint32 c) 0.
Proof.
  change 1 with (Z.ones 1) at 1. rewrite and_mask by lia.
  rewrite Z.land_ones by lia. change (2 ^ 1) with 2.
  rewrite <- Z.bit0_mod. unfold truthy.
  destruct (Z.testbit (ToUint32 c) 0); reflexivity.
Qed.

Lemma crcTable_step_spec c :
  ToUint32 (crcTable_step c) = Reference.bit_step (ToUint32 c).
Proof.
  unfold crcTable_step, Reference.bit_step.
  rewrite truthy_and_1, ushr_spec by lia.
  pose proof (shiftr_range (ToUint32 c) 1 ltac:(lia) (ToUint32_range c)) as Hr.
  destruct (Z.testbit (ToUint32 c) 0).
  - rewrite ToUint32_xor. rewrite (ToUint32_small (Z.shiftr _ _)) by assumption.
    reflexivity.
  - apply ToUint32_small. assumption.
Qed.

Lemma crcTable_entry_spec i :
  ToUint32 (crcTable_entry i) = Nat.iter 8 Reference.bit_step (ToUint32 i).
Proof.
  unfold crcTable_entry. cbn [seq fold_left Nat.iter].
  rewrite !crcTable_step_spec. reflexivity.
Qed.

Lemma crcTable_closed :
  crcTable = map (fun i => crcTable_entry (Z.of_nat i)) (seq 0 256).
Proof. vm_compute. reflexivity. Qed.

Lemma crcTable_get_spec k :
  0 <= k < 256 -> crcTable_get k = crcTable_entry k.
Proof.
  intros Hk. unfold crcTable_get.
  destruct (k <? 0) eqn:E; [apply Z.ltb_lt in E; lia|].
  rewrite crcTable_closed.
  rewrite (nth_indep _ 0 ((fun i => crcTable_entry (Z.of_nat i)) O))
    by (rewrite length_map, length_seq; lia).
  rewrite (map_nth (fun i => crcTable_entry (Z.of_nat i))).
  rewrite seq_nth by lia. rewrite Nat.add_0_l, Z2Nat.id by lia. reflexivity.
Qed.

(** One bit step commutes with the bits that are still above bit 0. *)
Lemma bit_step_lxor u h j :
  0 <= j ->
  Reference.bit_step (Z.lxor u (Z.shiftl h (j + 1)))
  = Z.lxor (Reference.bit_step u) (Z.shiftl h j).
Proof.
  intros Hj. unfold Reference.bit_step.
  rewrite Z.lxor_spec, (Z.shiftl_spec_low h (j + 1) 0) by lia.
  rewrite xorb_false_r, Z.shiftr_lxor, Z.shiftr_shiftl_l by lia.
  replace (j + 1 - 1) with j by lia.
  destruct (Z.testbit u 0); [rewrite Z.lxor_assoc|]; reflexivity.
Qed.

Lemma iter_bit_step_lxor (j : nat) u h :
  Nat.iter j Reference.bit_step (Z.lxor u (Z.shiftl h (Z.of_nat j)))
  = Z.lxor (Nat.iter j Reference.bit_step u) h.
Proof.
  revert u. induction j as [|j IH]; intros u.
  - cbn [Nat.iter Z.of_nat]. rewrite Z.shiftl_0_r. reflexivity.
  - rewrite !Nat.iter_succ_r.
    replace (Z.of_nat (S j)) with (Z.of_nat j + 1) by lia.
    rewrite bit_step_lxor by lia. apply IH.
Qed.

Lemma split_low_byte x :
  x = Z.lxor (Z.land x (Z.ones 8)) (Z.shiftl (Z.shiftr x 8) 8).
Proof.
  apply Z.bits_inj'. intros i Hi.
  rewrite Z.lxor_spec, Z.land_spec, Z.testbit_ones_nonneg by lia.
  destruct (i <? 8) eqn:E.
  - apply Z.ltb_lt in E. rewrite Z.shiftl_spec_low by lia.
    rewrite andb_true_r, xorb_false_r. reflexivity.
  - apply Z.ltb_ge in E. rewrite Z.shiftl_spec, Z.shiftr_spec by lia.
    rewrite andb_false_r. simpl. f_equal. lia.
Qed.

(** The classical table identity: eight bit steps of [x] are the table
    entry of its low byte xor-ed with the rest shifted down. *)
Lemma byte_step_table x :
  Nat.iter 8 Reference.bit_step x
  = Z.lxor (Nat.iter 8 Reference.bit_step (Z.land x (Z.ones 8))) (Z.shiftr x 8).
Proof.
  rewrite (split_low_byte x) at 1.
  apply (iter_bit_step_lxor 8).
Qed.

Lemma crc_update_spec c b :
  ToUint32 (crc_update c b) = Reference.byte_step (ToUint32 c) b.
Proof.
  unfold crc_update, Reference.byte_step.
  pose proof (Z_of_byte_range b) as Hb.
  change 0xff with (Z.ones 8).
  rewrite and_mask by lia.
  rewrite (ToUint32_xor c (Z_of_byte b)).
  rewrite (ToUint32_small (Z_of_byte b)) by lia.
  set (x := Z.lxor (ToUint32 c) (Z_of_byte b)).
  pose proof (land_low_range x 8 ltac:(lia)) as Hlow.
  change (2 ^ 8) with 256 in Hlow.
  rewrite crcTable_get_spec by lia.
  rewrite ToUint32_xor, crcTable_entry_spec.
  rewrite (ToUint32_small (Z.land x (Z.ones 8))) by lia.
  rewrite ushr_spec by lia.
  rewrite (ToUint32_small (Z.shiftr (ToUint32 c) 8))
    by (apply shiftr_range; [lia | apply ToUint32_range]).
  rewrite (byte_step_table x).
  f_equal. unfold x. rewrite Z.shiftr_lxor.
  rewrite (Z.shiftr_div_pow2 (Z_of_byte b)) by lia.
  rewrite (Z.div_small (Z_of_byte b)) by lia.
  rewrite Z.lxor_0_r. reflexivity.
Qed.

Lemma fold_left_commute {A B C} (f : A -> C -> A) (g : B -> C -> B) (h : A -> B) :
  (forall a c, h (f a c) = g (h a) c) ->
  forall l a, h (fold_left f l a) = fold_left g l (h a).
Proof.
  intros H l. induction l as [|c l IH]; intros a; cbn [fold_left].
  - reflexivity.
  - rewrite IH, H. reflexivity.
Qed.

Lemma fold_crc_update_spec data c :
  ToUint32 (fold_left crc_update data c)
  = fold_left Reference.byte_step data (ToUint32 c).
Proof.
  exact (fold_left_commute crc_update Reference.byte_step ToUint32
           crc_update_spec data c).
Qed.

Lemma calculateCRC32_refines data : calculateCRC32 data = Reference.crc32 data.
Proof.
  unfold calculateCRC32, Reference.crc32.
  rewrite ushr_spec by lia. rewrite Z.shiftr_0_r, ToUint32_xor.
  rewrite fold_crc_update_spec. reflexivity.
Qed.

Lemma calculateCRC32_range data : 0 <= calculateCRC32 data < 2 ^ 32.
Proof.
  unfold calculateCRC32. rewrite ushr_spec by lia. rewrite Z.shiftr_0_r.
  apply ToUint32_range.
Qed.

End Checksum.

(** C1.  The lookup table has 256 entries and the checksum built on it
    implements CRC-32/ISO-HDLC: on every byte sequence
    [calculateCRC32] agrees with the bitwise reference definition; on the
    empty sequence it returns [0x00000000], and on the ASCII bytes of
    "123456789" it returns [0xCBF43926]. *)
Theorem calculateCRC32_iso_hdlc :
  length crcTable = 256%nat
  /\ (forall data, calculateCRC32 data = Reference.crc32 data)
  /\ calculateCRC32 [] = 0x00000000
  /\ calculateCRC32 (ascii_bytes "123456789") = 0xCBF43926.
Proof.
  split; [vm_compute; reflexivity|].
  split; [exact calculateCRC32_refines|].
  split; vm_compute; reflexivity.
Qed.

(** ** Typed arrays *)

Lemma len_app (a b : list byte) : len (a ++ b) = len a + len b.
Proof. unfold len. rewrite length_app. lia. Qed.

Lemma len_nonneg (a : list byte) : 0 <= len a.
Proof. unfold len. lia. Qed.

Lemma len_le_bytes n v : len (le_bytes n v) = Z.of_nat n.
Proof.
  unfold len. f_equal. revert v. induction n; intros; simpl; [|rewrite IHn]; reflexivity.
Qed.

Lemma Uint8Array_new_add (n : nat) (m : Z) :
  0 <= m -> Uint8Array_new (Z.of_nat n + m) = repeat x00 n ++ Uint8Array_new m.
Proof.
  intros. unfold Uint8Array_new.
  rewrite Z2Nat.inj_add, Nat2Z.id by lia. apply repeat_app.
Qed.

Lemma len_Uint8Array_new m : 0 <= m -> len (Uint8Array_new m) = m.
Proof. intros. unfold len, Uint8Array_new. rewrite repeat_length. lia. Qed.

Lemma splice_prefix (pre suf src : Uint8Array) pos :
  0 <= pos -> pos + len src <= len pre ->
  splice (pre ++ suf) src pos = splice pre src pos ++ suf.
Proof.
  unfold splice, len. intros H0 H1.
  rewrite firstn_app, skipn_app.
  replace (Z.to_nat pos - length pre)%nat with O by lia.
  replace (Z.to_nat pos + length src - length pre)%nat with O by lia.
  simpl. rewrite app_nil_r, <- !app_assoc. reflexivity.
Qed.

Lemma splice_whole_suffix (pre old src : Uint8Array) :
  length old = length src ->
  splice (pre ++ old) src (len pre) = pre ++ src.
Proof.
  unfold splice, len. intros H. rewrite Nat2Z.id.
  rewrite firstn_app, Nat.sub_diag, firstn_all. simpl. rewrite app_nil_r.
  rewrite skipn_all2 by (rewrite length_app; lia).
  rewrite app_nil_r. reflexivity.
Qed.

Lemma DataView_setUint32_prefix (pre suf : Uint8Array) off v :
  0 <= off -> off + 4 <= len pre ->
  DataView_setUint32 (pre ++ suf) off v true
  = Ok (splice pre (le_bytes 4 (v mod 2 ^ 32)) off ++ suf).
Proof.
  intros H0 H1. unfold DataView_setUint32.
  pose proof (len_nonneg suf). rewrite len_app.
  replace ((0 <=? off) && (off + 4 <=? len pre + len suf)) with true
    by (symmetry; apply andb_true_iff; split; apply Z.leb_le; lia).
  unfold int_bytes. rewrite splice_prefix; [reflexivity | lia |].
  rewrite len_le_bytes. lia.
Qed.

Lemma DataView_setUint16_prefix (pre suf : Uint8Array) off v :
  0 <= off -> off + 2 <= len pre ->
  DataView_setUint16 (pre ++ suf) off v true
  = Ok (splice pre (le_bytes 2 (v mod 2 ^ 16)) off ++ suf).
Proof.
  intros H0 H1. unfold DataView_setUint16.
  pose proof (len_nonneg suf). rewrite len_app.
  replace ((0 <=? off) && (off + 2 <=? len pre + len suf)) with true
    by (symmetry; apply andb_true_iff; split; apply Z.leb_le; lia).
  unfold int_bytes. rewrite splice_prefix; [reflexivity | lia |].
  rewrite len_le_bytes. lia.
Qed.

Lemma Uint8Array_set_suffix (pre old src : Uint8Array) :
  length old = length src ->
  Uint8Array_set (pre ++ old) src (len pre) = Ok (pre ++ src).
Proof.
  intros H. unfold Uint8Array_set.
  pose proof (len_nonneg pre).
  replace ((0 <=? len pre) && (len pre + len src <=? len (pre ++ old))) with true
    by (symmetry; apply andb_true_iff; split; apply Z.leb_le;
        rewrite ?len_app; unfold len in *; lia).
  rewrite splice_whole_suffix by assumption. reflexivity.
Qed.

(** One field of a record: the write lands in the fixed-size prefix, which
    is then evaluated down to its bytes. *)
Ltac field_write :=
  first [ rewrite DataView_setUint32_prefix by (unfold len; simpl length; lia)
        | rewrite DataView_setUint16_prefix by (unfold len; simpl length; lia) ];
  cbn [bindR];
  match goal with
  | |- context [splice ?p ?b ?o] =>
    let r := eval cbv [splice firstn skipn app Z.to_nat Pos.to_nat
                       Pos.iter_op Nat.add length le_bytes]
             in (splice p b o) in
    change (splice p b o) with r
  end.

Lemma createLocalFileHeader_closed name fileSize crc :
  createLocalFileHeader name fileSize crc
  = Ok (local_header_fields fileSize crc (len (TextEncoder_encode name))
        ++ TextEncoder_encode name).
Proof.
  unfold createLocalFileHeader.
  change 30 with (Z.of_nat 30).
  rewrite Uint8Array_new_add by apply len_nonneg.
  cbv [repeat]. change (Z.of_nat 30) with 30.
  do 11 field_write.
  match goal with
  | |- Uint8Array_set (?pre ++ _) _ _ = _ =>
    change 30 with (len pre); rewrite Uint8Array_set_suffix
  end.
  - reflexivity.
  - unfold Uint8Array_new, len. rewrite repeat_length, Nat2Z.id. reflexivity.
Qed.

Lemma createCentralDirectoryEntry_closed name fileSize crc off :
  createCentralDirectoryEntry name fileSize crc off
  = Ok (central_record_fields fileSize crc (len (TextEncoder_encode name)) off
        ++ TextEncoder_encode name).
Proof.
  unfold createCentralDirectoryEntry.
  change 46 with (Z.of_nat 46).
  rewrite Uint8Array_new_add by apply len_nonneg.
  cbv [repeat]. change (Z.of_nat 46) with 46.
  do 17 field_write.
  match goal with
  | |- Uint8Array_set (?pre ++ _) _ _ = _ =>
    change 46 with (len pre); rewrite Uint8Array_set_suffix
  end.
  - reflexivity.
  - unfold Uint8Array_new, len. rewrite repeat_length, Nat2Z.id. reflexivity.
Qed.

Lemma createEndOfCentralDirectory_closed n size off :
  createEndOfCentralDirectory n size off = Ok (end_record n size off).
Proof.
  unfold createEndOfCentralDirectory.
  replace (Uint8Array_new 22) with (repeat x00 22 ++ []) by apply app_nil_r.
  cbv [repeat].
  do 8 field_write.
  rewrite app_nil_r. reflexivity.
Qed.

Lemma len_local_header_fields s c n : len (local_header_fields s c n) = 30.
Proof. reflexivity. Qed.

Lemma len_central_record_fields s c n o : len (central_record_fields s c n o) = 46.
Proof. reflexivity. Qed.

Lemma len_end_record n s o : len (end_record n s o) = 22.
Proof. reflexivity. Qed.

Lemma len_local_record e : len (local_record e) = Z.of_nat (local_record_size e).
Proof.
  unfold local_record, local_header, local_record_size.
  rewrite !len_app, len_local_header_fields. unfold len. lia.
Qed.

Lemma len_central_record e off :
  len (central_record e off) = Z.of_nat (central_record_size e).
Proof.
  unfold central_record, central_record_size.
  rewrite !len_app, len_central_record_fields. unfold len. lia.
Qed.

(** ** The loops of [createZip] *)

Lemma concat_local_parts es : concat (local_parts es) = local_section es.
Proof.
  unfold local_parts, local_section.
  induction es as [|e es IH]; cbn [flat_map concat app]; [reflexivity|].
  rewrite IH. unfold local_record. rewrite <- app_assoc. reflexivity.
Qed.

Lemma concat_central_parts es :
  forall off, concat (central_parts off es) = central_section off es.
Proof.
  induction es as [|e es IH]; intros off;
    cbn [central_parts central_section concat]; [reflexivity|].
  rewrite IH. reflexivity.
Qed.

Lemma local_section_cons e es :
  local_section (e :: es) = local_record e ++ local_section es.
Proof. reflexivity. Qed.

Lemma local_pass_loop es :
  forall st,
    for_each local_pass es st
    = Ok {| zipParts := zipParts st ++ local_parts es;
            centralDirectory := centralDirectory st ++ central_parts (offset st) es;
            offset := offset st + len (local_section es) |}.
Proof.
  induction es as [|e es IH]; intros st.
  - cbn [for_each local_parts flat_map central_parts local_section].
    change (len []) with 0.
    rewrite !app_nil_r, Z.add_0_r. destruct st; reflexivity.
  - cbn [for_each]. unfold local_pass at 1.
    rewrite createLocalFileHeader_closed, createCentralDirectoryEntry_closed.
    cbn [bindR]. rewrite IH. cbn [zipParts centralDirectory offset].
    fold (name_bytes e). fold (local_header e). fold (central_record e (offset st)).
    rewrite local_section_cons, len_app.
    assert (E : len (local_record e) = len (local_header e) + len (data e))
      by (unfold local_record; apply len_app).
    f_equal. f_equal.
    + unfold local_parts. cbn [flat_map]. rewrite <- !app_assoc. reflexivity.
    + cbn [central_parts]. rewrite E, <- app_assoc. reflexivity.
    + lia.
Qed.

Lemma central_pass_loop cds :
  forall zp n,
    for_each central_pass cds (zp, n) = Ok (zp ++ cds, n + len (concat cds)).
Proof.
  induction cds as [|c cds IH]; intros zp n.
  - cbn [for_each concat]. change (len []) with 0.
    rewrite app_nil_r, Z.add_0_r. reflexivity.
  - cbn [for_each]. unfold central_pass at 1. cbn [bindR fst snd].
    rewrite IH. cbn [concat]. rewrite len_app, <- app_assoc.
    f_equal. f_equal. lia.
Qed.

Lemma total_size_loop parts :
  forall s, fold_left (fun sum part => sum + len part) parts s
            = s + len (concat parts).
Proof.
  induction parts as [|p parts IH]; intros s; cbn [fold_left concat].
  - change (len []) with 0. lia.
  - rewrite IH, len_app. lia.
Qed.

Lemma Uint8Array_set_middle (pre old src : Uint8Array) :
  (length src <= length old)%nat ->
  Uint8Array_set (pre ++ old) src (len pre)
  = Ok (pre ++ src ++ skipn (length src) old).
Proof.
  intros H. unfold Uint8Array_set.
  pose proof (len_nonneg pre).
  replace ((0 <=? len pre) && (len pre + len src <=? len (pre ++ old))) with true
    by (symmetry; apply andb_true_iff; split; apply Z.leb_le;
        rewrite ?len_app; unfold len in *; lia).
  unfold splice, len. rewrite Nat2Z.id.
  rewrite firstn_app, Nat.sub_diag, firstn_all. simpl. rewrite app_nil_r.
  rewrite skipn_app.
  rewrite skipn_all2 by lia.
  replace (length pre + length src - length pre)%nat with (length src) by lia.
  reflexivity.
Qed.

Lemma copy_pass_loop parts :
  forall pre old,
    (length (concat parts) <= length old)%nat ->
    for_each copy_pass parts (pre ++ old, len pre)
    = Ok (pre ++ concat parts ++ skipn (length (concat parts)) old,
          len pre + len (concat parts)).
Proof.
  induction parts as [|p parts IH]; intros pre old H.
  - cbn [for_each concat app length skipn]. change (len []) with 0.
    rewrite Z.add_0_r. reflexivity.
  - cbn [concat] in *. rewrite length_app in H.
    cbn [for_each]. unfold copy_pass at 1. cbn [fst snd].
    rewrite Uint8Array_set_middle by lia. cbn [bindR].
    rewrite <- len_app, app_assoc.
    rewrite IH by (rewrite length_skipn; lia).
    rewrite skipn_skipn, !len_app, length_app, <- !app_assoc.
    f_equal. f_equal.
    + rewrite (Nat.add_comm (length (concat parts))). reflexivity.
    + lia.
Qed.

(** [createZip] never throws, and the buffer it returns is the
    concatenation of the local records, the central directory and the end
    record. *)
Lemma createZip_body_closed es :
  createZip_body es
  = Ok {| blob_bytes := archive es; blob_type := "application/zip" |}.
Proof.
  unfold createZip_body.
  rewrite local_pass_loop. cbn [bindR zipParts centralDirectory offset app].
  rewrite central_pass_loop. cbn [bindR].
  rewrite createEndOfCentralDirectory_closed. cbn [bindR].
  rewrite total_size_loop, !Z.add_0_l.
  set (parts := (local_parts es ++ central_parts 0 es) ++ [_]).
  pose proof (copy_pass_loop parts [] (Uint8Array_new (len (concat parts)))) as L.
  rewrite !app_nil_l in L. change (len []) with 0 in L.
  rewrite L; clear L.
  - cbn [bindR fst]. f_equal. f_equal.
    rewrite skipn_all2, app_nil_r.
    + unfold parts. rewrite !concat_app, concat_local_parts, !concat_central_parts.
      cbn [concat]. rewrite app_nil_r, <- app_assoc. reflexivity.
    + unfold Uint8Array_new, len. rewrite repeat_length. lia.
  - unfold Uint8Array_new, len. rewrite repeat_length. lia.
Qed.

Lemma createZip_closed this :
  createZip this
  = (Ok {| blob_bytes := archive (entries this); blob_type := "application/zip" |},
     this).
Proof.
  unfold createZip, bindM, get_entries, lift.
  rewrite createZip_body_closed. reflexivity.
Qed.

(** ** Reading fields back *)

Lemma read_le_le_bytes n : forall v rest,
  read_le n (le_bytes n v ++ rest) = Some (v mod 256 ^ Z.of_nat n).
Proof.
  induction n as [|n IH]; intros v rest.
  - cbn [read_le]. rewrite Z.mod_1_r. reflexivity.
  - cbn [read_le le_bytes app]. rewrite IH, Z_of_byte_of_Z.
    f_equal. rewrite Nat2Z.inj_succ, Z.pow_succ_r by lia.
    rewrite Z.rem_mul_r; [reflexivity | lia |].
    apply Z.pow_pos_nonneg; lia.
Qed.

Lemma read_u32_field v rest :
  read_le 4 (le_bytes 4 v ++ rest) = Some (v mod 2 ^ 32).
Proof. exact (read_le_le_bytes 4 v rest). Qed.

Lemma read_u16_field v rest :
  read_le 2 (le_bytes 2 v ++ rest) = Some (v mod 2 ^ 16).
Proof. exact (read_le_le_bytes 2 v rest). Qed.

Lemma skipn_past (pre rest : list byte) k :
  skipn (length pre + k) (pre ++ rest) = skipn k rest.
Proof.
  rewrite skipn_app, skipn_all2 by lia.
  replace (length pre + k - length pre)%nat with k by lia. reflexivity.
Qed.

Lemma read_u32_past (pre rest : list byte) k :
  read_u32 (pre ++ rest) (length pre + k) = read_u32 rest k.
Proof. unfold read_u32. rewrite skipn_past. reflexivity. Qed.

Lemma read_u16_past (pre rest : list byte) k :
  read_u16 (pre ++ rest) (length pre + k) = read_u16 rest k.
Proof. unfold read_u16. rewrite skipn_past. reflexivity. Qed.

Lemma slice_past (pre rest : list byte) k n :
  slice (pre ++ rest) (length pre + k) n = slice rest k n.
Proof. unfold slice. rewrite skipn_past. reflexivity. Qed.

Lemma slice_prefix (a rest : list byte) : slice (a ++ rest) 0 (length a) = a.
Proof.
  unfold slice. cbn [skipn]. rewrite firstn_app, Nat.sub_diag, firstn_all.
  cbn [firstn]. apply app_nil_r.
Qed.

Lemma slice_after (a b rest : list byte) :
  slice (a ++ b ++ rest) (length a) (length b) = b.
Proof.
  rewrite <- (Nat.add_0_r (length a)), slice_past. apply slice_prefix.
Qed.

(** *** The fields of a local header *)

Section LocalFields.
Variables (s c n : Z) (rest : list byte).
Let hdr := local_header_fields s c n ++ rest.

Lemma local_signature : read_u32 hdr 0 = Some 0x04034b50.
Proof. exact (read_u32_field 0x04034b50 _). Qed.

Lemma local_crc : read_u32 hdr 14 = Some ((c mod 2 ^ 32) mod 2 ^ 32).
Proof. exact (read_u32_field (c mod 2 ^ 32) _). Qed.

Lemma local_compressed_size : read_u32 hdr 18 = Some ((s mod 2 ^ 32) mod 2 ^ 32).
Proof. exact (read_u32_field (s mod 2 ^ 32) _). Qed.

Lemma local_uncompressed_size : read_u32 hdr 22 = Some ((s mod 2 ^ 32) mod 2 ^ 32).
Proof. exact (read_u32_field (s mod 2 ^ 32) _). Qed.

Lemma local_name_length : read_u16 hdr 26 = Some ((n mod 2 ^ 16) mod 2 ^ 16).
Proof. exact (read_u16_field (n mod 2 ^ 16) _). Qed.

Lemma local_fields_skip : skipn 30 hdr = rest.
Proof. reflexivity. Qed.

End LocalFields.

(** *** The fields of a central directory record *)

Section CentralFields.
Variables (s c n o : Z) (rest : list byte).
Let rec := central_record_fields s c n o ++ rest.

Lemma central_signature : read_u32 rec 0 = Some 0x02014b50.
Proof. exact (read_u32_field 0x02014b50 _). Qed.

Lemma central_crc : read_u32 rec 16 = Some ((c mod 2 ^ 32) mod 2 ^ 32).
Proof. exact (read_u32_field (c mod 2 ^ 32) _). Qed.

Lemma central_compressed_size : read_u32 rec 20 = Some ((s mod 2 ^ 32) mod 2 ^ 32).
Proof. exact (read_u32_field (s mod 2 ^ 32) _). Qed.

Lemma central_uncompressed_size : read_u32 rec 24 = Some ((s mod 2 ^ 32) mod 2 ^ 32).
Proof. exact (read_u32_field (s mod 2 ^ 32) _). Qed.

Lemma central_name_length : read_u16 rec 28 = Some ((n mod 2 ^ 16) mod 2 ^ 16).
Proof. exact (read_u16_field (n mod 2 ^ 16) _). Qed.

Lemma central_offset : read_u32 rec 42 = Some ((o mod 2 ^ 32) mod 2 ^ 32).
Proof. exact (read_u32_field (o mod 2 ^ 32) _). Qed.

Lemma central_fields_skip : skipn 46 rec = rest.
Proof. reflexivity. Qed.

End CentralFields.

(** *** The fields of the end record *)

Section EndFields.
Variables (n s o : Z) (rest : list byte).
Let rec := end_record n s o ++ rest.

Lemma end_signature : read_u32 rec 0 = Some 0x06054b50.
Proof. exact (read_u32_field 0x06054b50 _). Qed.

Lemma end_entries_on_disk : read_u16 rec 8 = Some ((n mod 2 ^ 16) mod 2 ^ 16).
Proof. exact (read_u16_field (n mod 2 ^ 16) _). Qed.

Lemma end_entries_total : read_u16 rec 10 = Some ((n mod 2 ^ 16) mod 2 ^ 16).
Proof. exact (read_u16_field (n mod 2 ^ 16) _). Qed.

Lemma end_directory_size : read_u32 rec 12 = Some ((s mod 2 ^ 32) mod 2 ^ 32).
Proof. exact (read_u32_field (s mod 2 ^ 32) _). Qed.

Lemma end_directory_offset : read_u32 rec 16 = Some ((o mod 2 ^ 32) mod 2 ^ 32).
Proof. exact (read_u32_field (o mod 2 ^ 32) _). Qed.

End EndFields.

(** ** Where the records lie *)

Lemma read_u32_skipn buf p k : read_u32 buf (p + k) = read_u32 (skipn p buf) k.
Proof. unfold read_u32. rewrite skipn_skipn, (Nat.add_comm k p). reflexivity. Qed.

Lemma read_u16_skipn buf p k : read_u16 buf (p + k) = read_u16 (skipn p buf) k.
Proof. unfold read_u16. rewrite skipn_skipn, (Nat.add_comm k p). reflexivity. Qed.

Lemma slice_skipn buf p k n : slice buf (p + k) n = slice (skipn p buf) k n.
Proof. unfold slice. rewrite skipn_skipn, (Nat.add_comm k p). reflexivity. Qed.

Lemma sum_sizes_app size es1 es2 :
  sum_sizes size (es1 ++ es2) = (sum_sizes size es1 + sum_sizes size es2)%nat.
Proof. unfold sum_sizes. rewrite map_app, list_sum_app. reflexivity. Qed.

Lemma local_section_app es1 es2 :
  local_section (es1 ++ es2) = local_section es1 ++ local_section es2.
Proof. apply flat_map_app. Qed.

Lemma central_section_app es1 : forall off es2,
  central_section off (es1 ++ es2)
  = central_section off es1
    ++ central_section (off + len (local_section es1)) es2.
Proof.
  induction es1 as [|e es1 IH]; intros off es2.
  - cbn [app central_section local_section flat_map].
    change (len []) with 0. rewrite Z.add_0_r. reflexivity.
  - cbn [app central_section]. rewrite IH, local_section_cons, len_app.
    rewrite <- app_assoc, Z.add_assoc. reflexivity.
Qed.

Lemma length_local_record e : length (local_record e) = local_record_size e.
Proof. pose proof (len_local_record e) as H. unfold len in H. lia. Qed.

Lemma length_central_record e off :
  length (central_record e off) = central_record_size e.
Proof. pose proof (len_central_record e off) as H. unfold len in H. lia. Qed.

Lemma length_local_section es :
  length (local_section es) = sum_sizes local_record_size es.
Proof.
  induction es as [|e es IH]; [reflexivity|].
  rewrite local_section_cons, length_app, IH, length_local_record.
  reflexivity.
Qed.

Lemma length_central_section es : forall off,
  length (central_section off es) = sum_sizes central_record_size es.
Proof.
  induction es as [|e es IH]; intros off; [reflexivity|].
  cbn [central_section]. rewrite length_app, IH, length_central_record.
  reflexivity.
Qed.

Lemma entry_split (es : list ZipEntry) i e :
  nth_error es i = Some e ->
  exists es1 es2, es = es1 ++ e :: es2 /\ firstn i es = es1.
Proof.
  intros H. destruct (nth_error_split es i H) as (es1 & es2 & E & L).
  exists es1, es2. split; [assumption|].
  subst es i. rewrite firstn_app, Nat.sub_diag, firstn_all.
  cbn [firstn]. apply app_nil_r.
Qed.

(** From the index of its local header on, the buffer holds the header of
    the entry, then its payload. *)
Lemma archive_at_local es i e :
  nth_error es i = Some e ->
  exists rest,
    skipn (local_header_index es i) (archive es)
    = local_header e ++ data e ++ rest.
Proof.
  intros H. destruct (entry_split es i e H) as (es1 & es2 & E & F).
  unfold local_header_index. rewrite F, <- length_local_section.
  assert (S : local_section es
              = local_section es1
                ++ local_header e ++ data e ++ local_section es2).
  { rewrite E, local_section_app, local_section_cons.
    unfold local_record. rewrite <- app_assoc. reflexivity. }
  eexists. unfold archive. rewrite S, <- !app_assoc.
  rewrite <- (Nat.add_0_r (length (local_section es1))).
  rewrite skipn_past. cbn [skipn]. reflexivity.
Qed.

(** From the index of its central record on, the buffer holds the central
    record of the entry, written with the running offset at that entry. *)
Lemma archive_at_central es i e :
  nth_error es i = Some e ->
  exists rest,
    skipn (central_record_index es i) (archive es)
    = central_record e (Z.of_nat (local_header_index es i)) ++ rest.
Proof.
  intros H. destruct (entry_split es i e H) as (es1 & es2 & E & F).
  unfold central_record_index, local_header_index. rewrite F.
  rewrite <- (length_local_section es), <- (length_local_section es1).
  rewrite <- (length_central_section es1 0).
  fold (len (local_section es1)).
  assert (S : central_section 0 es
              = central_section 0 es1
                ++ central_record e (len (local_section es1))
                ++ central_section
                     (len (local_section es1) + len (local_record e)) es2).
  { rewrite E, central_section_app. cbn [central_section].
    rewrite !Z.add_0_l. reflexivity. }
  eexists. unfold archive.
  rewrite skipn_past. rewrite S, <- !app_assoc.
  rewrite <- (Nat.add_0_r (length (central_section 0 es1))).
  rewrite skipn_past. cbn [skipn]. reflexivity.
Qed.

(** ** The fields of an entry in the finished buffer *)

Lemma mod_mod_32 x : (x mod 2 ^ 32) mod 2 ^ 32 = x mod 2 ^ 32.
Proof. apply Z.mod_mod. lia. Qed.

Lemma mod_mod_16 x : (x mod 2 ^ 16) mod 2 ^ 16 = x mod 2 ^ 16.
Proof. apply Z.mod_mod. lia. Qed.

Lemma local_fields_of_entry es i e :
  nth_error es i = Some e ->
  let L := local_header_index es i in
  let buf := archive es in
  read_u32 buf (L + 0) = Some 0x04034b50
  /\ read_u32 buf (L + 14) = Some (crc32 e mod 2 ^ 32)
  /\ read_u32 buf (L + 18) = Some (len (data e) mod 2 ^ 32)
  /\ read_u32 buf (L + 22) = Some (len (data e) mod 2 ^ 32)
  /\ read_u16 buf (L + 26) = Some (len (name_bytes e) mod 2 ^ 16)
  /\ slice buf (L + 30) (length (name_bytes e)) = name_bytes e
  /\ slice buf (L + (30 + length (name_bytes e))) (length (data e)) = data e.
Proof.
  intros H L buf. destruct (archive_at_local es i e H) as (rest & S).
  fold L buf in S.
  rewrite !read_u32_skipn, read_u16_skipn, !slice_skipn, S.
  unfold local_header. rewrite <- !app_assoc.
  rewrite local_signature, local_crc, local_compressed_size,
    local_uncompressed_size, local_name_length, mod_mod_32, mod_mod_32, mod_mod_16.
  repeat split.
  - unfold slice. rewrite local_fields_skip, firstn_app, Nat.sub_diag, firstn_all.
    cbn [firstn]. apply app_nil_r.
  - rewrite local_fields_skip. apply slice_after.
Qed.

Lemma central_fields_of_entry es i e :
  nth_error es i = Some e ->
  let C := central_record_index es i in
  let buf := archive es in
  read_u32 buf (C + 0) = Some 0x02014b50
  /\ read_u32 buf (C + 16) = Some (crc32 e mod 2 ^ 32)
  /\ read_u32 buf (C + 20) = Some (len (data e) mod 2 ^ 32)
  /\ read_u32 buf (C + 24) = Some (len (data e) mod 2 ^ 32)
  /\ read_u16 buf (C + 28) = Some (len (name_bytes e) mod 2 ^ 16)
  /\ read_u32 buf (C + 42) = Some (Z.of_nat (local_header_index es i) mod 2 ^ 32)
  /\ slice buf (C + 46) (length (name_bytes e)) = name_bytes e.
Proof.
  intros H C buf. destruct (archive_at_central es i e H) as (rest & S).
  fold C buf in S.
  rewrite !read_u32_skipn, read_u16_skipn, !slice_skipn, S.
  unfold central_record. rewrite <- !app_assoc.
  rewrite central_signature, central_crc, central_compressed_size,
    central_uncompressed_size, central_name_length, central_offset,
    !mod_mod_32, mod_mod_16.
  repeat split.
  unfold slice. rewrite central_fields_skip, firstn_app, Nat.sub_diag, firstn_all.
  cbn [firstn]. apply app_nil_r.
Qed.

(** ** Registration *)

Lemma addFile_bytes name a isBase64 this :
  addFile name (DataBytes a) isBase64 this = (Ok tt, push this (entry_of name a)).
Proof. reflexivity. Qed.

Lemma addFile_text name s this :
  addFile name (DataString s) false this
  = (Ok tt, push this (entry_of name (TextEncoder_encode s))).
Proof. reflexivity. Qed.

Lemma addFile_base64 name s this :
  addFile name (DataString s) true this
  = match atob s with
    | Ok bin => (Ok tt, push this (entry_of name (map byte_of_N bin)))
    | Throw err => (Throw err, this)
    end.
Proof.
  unfold addFile, bindM, lift, base64ToUint8Array.
  destruct (atob s); reflexivity.
Qed.

Lemma addFile_undefined name isBase64 this :
  addFile name DataUndefined isBase64 this = (Throw TypeError, this).
Proof. reflexivity. Qed.

(** Every call of [addFile] either appends one entry, whose checksum is that
    of its payload, or throws and leaves the object as it was. *)
Lemma addFile_outcome name d isBase64 this :
  (exists a, addFile name d isBase64 this = (Ok tt, push this (entry_of name a)))
  \/ (exists err, addFile name d isBase64 this = (Throw err, this)).
Proof.
  destruct d as [s|a|].
  - destruct isBase64.
    + rewrite addFile_base64. destruct (atob s); eauto.
    + rewrite addFile_text. eauto.
  - rewrite addFile_bytes. eauto.
  - rewrite addFile_undefined. eauto.
Qed.

Lemma addImageFromDataURL_outcome name dataURL this :
  (exists a, addImageFromDataURL name dataURL this
             = (Ok tt, push this (entry_of name a)))
  \/ (exists err, addImageFromDataURL name dataURL this = (Throw err, this)).
Proof.
  unfold addImageFromDataURL.
  destruct (nth_error (String_split comma dataURL) 1); apply addFile_outcome.
Qed.


(** ** Offsets *)

Lemma two_files_reachable : reachable two_files.
Proof.
  unfold two_files.
  apply (reach_addFile
           (snd (addFile (str "a.png") (DataBytes [x89; x50]) false
                   new_CustomZipCreator))
           (str "b.txt") (DataString (str "hi")) false).
  - apply (reach_addFile new_CustomZipCreator
             (str "a.png") (DataBytes [x89; x50]) false);
      [apply reach_new | reflexivity].
  - reflexivity.
Qed.

(** C2 (amended).  For every entry whose local header starts below 2^32,
    [createZip] succeeds and the relative-offset field of the entry's
    central directory record holds the byte index at which the entry's local
    file header (signature [0x04034B50], then the name and the payload of
    that entry) begins in the returned buffer. *)
Theorem central_offset_is_local_header_index this i e :
  nth_error (entries this) i = Some e ->
  Z.of_nat (local_header_index (entries this) i) < 2 ^ 32 ->
  exists blob,
    createZip this = (Ok blob, this)
    /\ let buf := blob_bytes blob in
       let L := local_header_index (entries this) i in
       let C := central_record_index (entries this) i in
       read_u32 buf (C + 42) = Some (Z.of_nat L)
       /\ read_u32 buf C = Some 0x02014b50
       /\ slice buf (C + 46) (length (name_bytes e)) = name_bytes e
       /\ read_u32 buf L = Some 0x04034b50
       /\ slice buf (L + 30) (length (name_bytes e)) = name_bytes e
       /\ slice buf (L + (30 + length (name_bytes e))) (length (data e)) = data e.
Proof.
  intros H Hlt. eexists. split; [apply createZip_closed|].
  cbv zeta. cbn [blob_bytes].
  destruct (local_fields_of_entry _ _ _ H) as (l0 & _ & _ & _ & _ & l5 & l6).
  destruct (central_fields_of_entry _ _ _ H) as (c0 & _ & _ & _ & _ & c5 & c6).
  cbv zeta in l0, l5, l6, c0, c5, c6.
  rewrite Nat.add_0_r in l0, c0.
  rewrite Z.mod_small in c5 by lia.
  repeat split; assumption.
Qed.

Lemma central_offset_is_local_header_index_witness :
  exists blob,
    createZip two_files = (Ok blob, two_files)
    /\ read_u32 (blob_bytes blob) (central_record_index (entries two_files) 1 + 42)
       = Some 37.
Proof.
  destruct (central_offset_is_local_header_index two_files 1
              (entry_of (str "b.txt") (TextEncoder_encode (str "hi"))))
    as (blob & E & F & _).
  - reflexivity.
  - vm_compute. reflexivity.
  - exists blob. split; [exact E | exact F].
Defined.

Lemma huge_payload_len : len huge_payload = 4294967296.
Proof.
  unfold huge_payload, len. rewrite repeat_length. apply Z2Nat.id. lia.
Qed.

Lemma huge_alone_entries :
  huge_alone = {| entries := [entry_of (str "a") huge_payload] |}.
Proof. unfold huge_alone. rewrite addFile_bytes. reflexivity. Qed.

Lemma huge_then_small_entries :
  huge_then_small
  = {| entries := [entry_of (str "a") huge_payload; entry_of (str "b") []] |}.
Proof.
  unfold huge_then_small. rewrite addFile_bytes, huge_alone_entries. reflexivity.
Qed.

Lemma huge_alone_reachable : reachable huge_alone.
Proof.
  apply (reach_addFile new_CustomZipCreator (str "a") (DataBytes huge_payload) false).
  - apply reach_new.
  - unfold huge_alone. rewrite addFile_bytes. reflexivity.
Qed.

Lemma huge_then_small_reachable : reachable huge_then_small.
Proof.
  apply (reach_addFile huge_alone (str "b") (DataBytes []) false).
  - apply huge_alone_reachable.
  - unfold huge_then_small. rewrite addFile_bytes. reflexivity.
Qed.

(** C2 as stated fails: after a payload of 2^32 bytes, the local header of
    the next entry begins at byte 4294967327, and the offset field of its
    central directory record holds 31. *)
Lemma central_offset_wraps :
  reachable huge_then_small
  /\ exists e blob,
       nth_error (entries huge_then_small) 1 = Some e
       /\ createZip huge_then_small = (Ok blob, huge_then_small)
       /\ Z.of_nat (local_header_index (entries huge_then_small) 1) = 4294967327
       /\ read_u32 (blob_bytes blob) (local_header_index (entries huge_then_small) 1)
          = Some 0x04034b50
       /\ read_u32 (blob_bytes blob)
            (central_record_index (entries huge_then_small) 1 + 42)
          = Some 31.
Proof.
  split; [apply huge_then_small_reachable|].
  rewrite huge_then_small_entries. cbn [entries].
  pose proof huge_payload_len as Hh. revert Hh.
  generalize huge_payload as h. intros h Hh.
  set (es := [entry_of (str "a") h; entry_of (str "b") []]).
  assert (Hn : nth_error es 1 = Some (entry_of (str "b") [])) by reflexivity.
  assert (HL : Z.of_nat (local_header_index es 1) = 4294967327).
  { unfold local_header_index, sum_sizes, es. cbn [firstn map list_sum].
    unfold local_record_size, name_bytes. cbn [entry_of filename data].
    change (TextEncoder_encode (str "a")) with [x61].
    unfold len in Hh. unfold list_sum. cbn [length fold_right]. lia. }
  exists (entry_of (str "b") []). eexists.
  split; [exact Hn|]. split; [apply createZip_closed|]. split; [exact HL|].
  cbn [blob_bytes entries].
  destruct (local_fields_of_entry _ _ _ Hn) as (l0 & _).
  destruct (central_fields_of_entry _ _ _ Hn) as (_ & _ & _ & _ & _ & c5 & _).
  cbv zeta in l0, c5. rewrite Nat.add_0_r in l0. rewrite HL in c5.
  split; [exact l0 | exact c5].
Qed.

(** ** Checksums and sizes *)

(** C3 as stated fails: for a payload of 2^32 bytes the size fields of both
    records hold 0. *)
Lemma size_fields_wrap :
  reachable huge_alone
  /\ exists e blob,
       nth_error (entries huge_alone) 0 = Some e
       /\ createZip huge_alone = (Ok blob, huge_alone)
       /\ len (data e) = 4294967296
       /\ read_u32 (blob_bytes blob) (local_header_index (entries huge_alone) 0 + 18)
          = Some 0
       /\ read_u32 (blob_bytes blob) (local_header_index (entries huge_alone) 0 + 22)
          = Some 0
       /\ read_u32 (blob_bytes blob) (central_record_index (entries huge_alone) 0 + 20)
          = Some 0
       /\ read_u32 (blob_bytes blob) (central_record_index (entries huge_alone) 0 + 24)
          = Some 0.
Proof.
  split; [apply huge_alone_reachable|].
  rewrite huge_alone_entries. cbn [entries].
  pose proof huge_payload_len as Hh. revert Hh.
  generalize huge_payload as h. intros h Hh.
  set (es := [entry_of (str "a") h]).
  assert (Hn : nth_error es 0 = Some (entry_of (str "a") h)) by reflexivity.
  exists (entry_of (str "a") h). eexists.
  split; [exact Hn|]. split; [apply createZip_closed|].
  split; [exact Hh|].
  cbn [blob_bytes entries].
  destruct (local_fields_of_entry _ _ _ Hn) as (_ & _ & l2 & l3 & _).
  destruct (central_fields_of_entry _ _ _ Hn) as (_ & _ & c2 & c3 & _).
  cbv zeta in l2, l3, c2, c3. cbn [entry_of data] in l2, l3, c2, c3.
  rewrite Hh in l2, l3, c2, c3.
  repeat split; assumption.
Qed.

(** ** Splitting and decoding a data URL *)

Lemma String_split_no_sep sep s : ~ In sep s -> String_split sep s = [s].
Proof.
  induction s as [|c s IH]; intros H; cbn [String_split]; [reflexivity|].
  destruct (N.eqb_spec c sep) as [->|_].
  - exfalso. apply H. left. reflexivity.
  - rewrite IH; [reflexivity|]. intros F. apply H. right. exact F.
Qed.

Lemma String_split_first sep pre rest :
  ~ In sep pre ->
  String_split sep (pre ++ sep :: rest) = pre :: String_split sep rest.
Proof.
  induction pre as [|c pre IH]; intros H; cbn [String_split app].
  - rewrite N.eqb_refl. reflexivity.
  - destruct (N.eqb_spec c sep) as [->|_].
    + exfalso. apply H. left. reflexivity.
    + rewrite IH; [reflexivity|]. intros F. apply H. right. exact F.
Qed.

Lemma base64_values_all l vs c :
  base64_values l = Some vs -> In c l -> base64_value c <> None.
Proof.
  revert vs. induction l as [|d l IH]; intros vs H I; [destruct I|].
  cbn [base64_values] in H.
  destruct (base64_value d) as [v|] eqn:Ed; [|discriminate].
  destruct (base64_values l) as [vs'|] eqn:El; [|discriminate].
  destruct I as [<-|I].
  - rewrite Ed. discriminate.
  - exact (IH vs' eq_refl I).
Qed.

Lemma strip_padding_keeps s c :
  c <> equals_sign -> In c s -> In c (strip_padding s).
Proof.
  intros Hc I. unfold strip_padding.
  assert (Ir : In c (rev s)) by (apply in_rev; rewrite rev_involutive; exact I).
  destruct (rev s) as [|a [|b tl]] eqn:E; [exact I | |].
  - destruct (N.eqb_spec a equals_sign) as [->|_]; [|exact I].
    destruct Ir as [<-|[]]. contradiction.
  - destruct (N.eqb_spec a equals_sign) as [->|_]; [|exact I].
    destruct Ir as [<-|Ir]; [contradiction|].
    destruct (N.eqb_spec b equals_sign) as [->|_].
    + destruct Ir as [<-|Ir]; [contradiction|]. apply in_rev in Ir. exact Ir.
    + apply in_rev in Ir. exact Ir.
Qed.

(** Text that [atob] accepts holds no comma. *)
Lemma atob_no_comma s bin : atob s = Ok bin -> ~ In comma s.
Proof.
  unfold atob, forgiving_base64_decode. intros H I.
  set (d1 := filter (fun c => negb (is_ascii_whitespace c)) s) in H.
  assert (I1 : In comma d1) by (apply filter_In; split; [exact I | reflexivity]).
  set (d2 := if (length d1 mod 4 =? 0)%nat then strip_padding d1 else d1) in H.
  assert (I2 : In comma d2).
  { unfold d2. destruct (length d1 mod 4 =? 0)%nat; [|exact I1].
    apply strip_padding_keeps; [discriminate | exact I1]. }
  destruct (length d2 mod 4 =? 1)%nat; [discriminate|].
  destruct (base64_values d2) as [vs|] eqn:E; [|discriminate].
  exact (base64_values_all d2 vs comma E I2 eq_refl).
Qed.

(** C10.  For a data URL with a comma, [pre] being the text before the
    first comma and [rest] the text after it: when [rest] is valid base64,
    [addImageFromDataURL] appends exactly one entry, whose payload is the
    decoding of [rest]; [pre] is not looked at. *)
Theorem addImageFromDataURL_decodes_after_first_comma name pre rest bin this :
  ~ In comma pre ->
  atob rest = Ok bin ->
  base64ToUint8Array rest = Ok (map byte_of_N bin)
  /\ addImageFromDataURL name (pre ++ comma :: rest) this
     = (Ok tt,
        {| entries :=
             entries this
             ++ [{| filename := name;
                    data := map byte_of_N bin;
                    crc32 := calculateCRC32 (map byte_of_N bin) |}] |}).
Proof.
  intros Hpre Hrest. split.
  - unfold base64ToUint8Array. rewrite Hrest. reflexivity.
  - unfold addImageFromDataURL.
    rewrite String_split_first by exact Hpre.
    rewrite String_split_no_sep by exact (atob_no_comma rest bin Hrest).
    cbn [nth_error]. rewrite addFile_base64, Hrest. reflexivity.
Qed.

Lemma addImageFromDataURL_decodes_after_first_comma_witness :
  addImageFromDataURL (str "page_1.png") (str "data:image/png;base64,iVBORw==")
    new_CustomZipCreator
  = (Ok tt,
     {| entries :=
          [{| filename := str "page_1.png";
              data := page_payload;
              crc32 := calculateCRC32 page_payload |}] |}).
Proof.
  exact (proj2 (addImageFromDataURL_decodes_after_first_comma
                  (str "page_1.png") (str "data:image/png;base64")
                  (str "iVBORw==") [137; 80; 78; 71]%N new_CustomZipCreator
                  ltac:(vm_compute; intuition discriminate)
                  ltac:(vm_compute; reflexivity))).
Defined.

(** ** What [addFile] checks *)

Lemma TextEncoder_encode_letters n :
  TextEncoder_encode (repeat 97%N n) = repeat x61 n.
Proof.
  induction n as [|n IH]; [reflexivity|].
  cbn [repeat]. change (TextEncoder_encode (97%N :: repeat 97%N n))
    with (x61 :: TextEncoder_encode (repeat 97%N n)).
  rewrite IH. reflexivity.
Qed.

(** C5 as stated fails: a name of 65536 bytes is accepted, and so is a
    payload of 2^32 bytes; no error is raised and the entry is added. *)
Lemma addFile_accepts_oversized :
  (len (TextEncoder_encode long_name) = 65536
   /\ addFile long_name (DataBytes []) false new_CustomZipCreator
      = (Ok tt,
         {| entries := [{| filename := long_name; data := []; crc32 := 0 |}] |}))
  /\ (len huge_payload = 4294967296
      /\ addFile (str "a") (DataBytes huge_payload) false new_CustomZipCreator
         = (Ok tt,
            {| entries :=
                 [{| filename := str "a";
                     data := huge_payload;
                     crc32 := calculateCRC32 huge_payload |}] |})).
Proof.
  split; split.
  - unfold long_name. rewrite TextEncoder_encode_letters.
    unfold len. rewrite repeat_length. apply Z2Nat.id. lia.
  - rewrite addFile_bytes. reflexivity.
  - apply huge_payload_len.
  - rewrite addFile_bytes. reflexivity.
Qed.

(** C5 (amended).  [addFile] checks neither the length of the name nor the
    length of the payload: with a byte array, or with a string that is not
    base64, it never throws and appends exactly one entry, holding the name,
    the payload and its checksum.  Whenever [addFile] does throw, the
    entries are exactly as they were before the call. *)
Theorem addFile_checks_no_size name d isBase64 this :
  (forall a, d = DataBytes a ->
     addFile name d isBase64 this
     = (Ok tt,
        {| entries :=
             entries this
             ++ [{| filename := name; data := a; crc32 := calculateCRC32 a |}] |}))
  /\ (forall s, d = DataString s -> isBase64 = false ->
        addFile name d isBase64 this
        = (Ok tt,
           {| entries :=
                entries this
                ++ [{| filename := name;
                       data := TextEncoder_encode s;
                       crc32 := calculateCRC32 (TextEncoder_encode s) |}] |}))
  /\ (forall err this',
        addFile name d isBase64 this = (Throw err, this') -> this' = this).
Proof.
  split; [|split].
  - intros a ->. apply addFile_bytes.
  - intros s -> ->. apply addFile_text.
  - intros err this' H.
    destruct (addFile_outcome name d isBase64 this) as [(a & E)|(err' & E)];
      rewrite E in H; [discriminate|].
    injection H as _ <-. reflexivity.
Qed.

Lemma addFile_checks_no_size_witness :
  addFile long_name (DataBytes page_payload) false new_CustomZipCreator
  = (Ok tt,
     {| entries :=
          [{| filename := long_name;
              data := page_payload;
              crc32 := calculateCRC32 page_payload |}] |})
  /\ snd (addFile (str "a") (DataString (str "!")) true two_files) = two_files.
Proof.
  split.
  - exact (proj1 (addFile_checks_no_size long_name (DataBytes page_payload)
                    false new_CustomZipCreator) page_payload eq_refl).
  - exact (proj2 (proj2 (addFile_checks_no_size (str "a") (DataString (str "!"))
                           true two_files))
             InvalidCharacterError
             (snd (addFile (str "a") (DataString (str "!")) true two_files))
             ltac:(vm_compute; reflexivity)).
Defined.

(** ** Malformed base64 *)

(** Through [addFile], malformed base64 text raises the decoding error and
    adds nothing. *)
Lemma addFile_malformed_base64 name s err this :
  atob s = Throw err ->
  addFile name (DataString s) true this = (Throw err, this).
Proof. intros H. rewrite addFile_base64, H. reflexivity. Qed.

(** Through [addImageFromDataURL], a data URL without a comma raises a
    [TypeError], and one whose text between the first and the second comma
    is malformed raises the decoding error; both add nothing. *)
Lemma addImageFromDataURL_no_comma name dataURL this :
  ~ In comma dataURL ->
  addImageFromDataURL name dataURL this = (Throw TypeError, this).
Proof.
  intros H. unfold addImageFromDataURL.
  rewrite String_split_no_sep by exact H. reflexivity.
Qed.

(** C6, at a data URL whose base64 text holds a second comma: the text
    after the prefix, [AAAA,!!!!], is malformed, yet no error is raised and
    an entry with the decoding of [AAAA] is added. *)
Theorem addImageFromDataURL_second_comma :
  atob (str "AAAA,!!!!") = Throw InvalidCharacterError
  /\ addFile (str "page_1.png") (DataString (str "AAAA,!!!!")) true
       new_CustomZipCreator
     = (Throw InvalidCharacterError, new_CustomZipCreator)
  /\ addImageFromDataURL (str "page_1.png")
       (str "data:image/png;base64,AAAA,!!!!") new_CustomZipCreator
     = (Ok tt,
        {| entries :=
             [{| filename := str "page_1.png";
                 data := [x00; x00; x00];
                 crc32 := 0xFF41D912 |}] |}).
Proof. repeat split; vm_compute; reflexivity. Qed.

(** ** The empty archive *)

(** C4.  On an object without entries [createZip] succeeds, and the buffer
    is the 22 bytes of one end-of-central-directory record: signature
    [0x06054B50], both entry counts 0, directory size 0, directory offset
    0. *)
Theorem createZip_empty this :
  entries this = [] ->
  exists buf,
    createZip this = (Ok {| blob_bytes := buf; blob_type := "application/zip" |}, this)
    /\ buf = x50 :: x4b :: x05 :: x06 :: repeat x00 18
    /\ length buf = 22%nat
    /\ read_u32 buf 0 = Some 0x06054b50
    /\ read_u16 buf 8 = Some 0
    /\ read_u16 buf 10 = Some 0
    /\ read_u32 buf 12 = Some 0
    /\ read_u32 buf 16 = Some 0.
Proof.
  intros H. eexists. split.
  - rewrite createZip_closed, H. reflexivity.
  - repeat split; vm_compute; reflexivity.
Qed.

Lemma createZip_empty_witness :
  exists buf,
    createZip new_CustomZipCreator
    = (Ok {| blob_bytes := buf; blob_type := "application/zip" |},
       new_CustomZipCreator)
    /\ length buf = 22%nat.
Proof.
  destruct (createZip_empty new_CustomZipCreator eq_refl) as (buf & E & _ & L & _).
  exists buf. split; [exact E | exact L].
Defined.

(** ** One page *)

(** C7.  After adding "page_1.png" with payload [89 50 4E 47], the buffer
    of [createZip] starts with [50 4B 03 04], is 30 + 10 + 4 + 46 + 10 + 22
    = 122 bytes long, and the checksum stored for the entry, in the object
    and in both records, is the CRC-32/ISO-HDLC value of the four payload
    bytes, [0x5BEBBEA5]. *)
Theorem one_page_archive :
  addFile (str "page_1.png") (DataBytes page_payload) false new_CustomZipCreator
  = (Ok tt, one_page)
  /\ exists buf,
       createZip one_page
       = (Ok {| blob_bytes := buf; blob_type := "application/zip" |}, one_page)
       /\ firstn 4 buf = [x50; x4b; x03; x04]
       /\ length buf = (30 + 10 + 4 + 46 + 10 + 22)%nat
       /\ length buf = 122%nat
       /\ map crc32 (entries one_page) = [Reference.crc32 page_payload]
       /\ read_u32 buf 14 = Some (Reference.crc32 page_payload)
       /\ read_u32 buf (30 + 10 + 4 + 16) = Some (Reference.crc32 page_payload)
       /\ Reference.crc32 page_payload = 0x5BEBBEA5.
Proof.
  split; [reflexivity|].
  eexists. split; [vm_compute; reflexivity|].
  repeat split; vm_compute; reflexivity.
Qed.

(** ** Determinism and frame *)






(** [createZip] returns the object it was called on. *)
Lemma createZip_leaves_object this : snd (createZip this) = this.
Proof. rewrite createZip_closed. reflexivity. Qed.

(** ** [createZip] on the store *)

Module StoreFacts.

Lemma bind_run {A B} (m : Store.M A) (k : A -> Store.M B) s :
  Store.bind m k s
  = match m s with
    | (Ok a, s') => k a s'
    | (Throw e, s') => (Throw e, s')
    end.
Proof. reflexivity. Qed.

Lemma new_array_run b h es :
  Store.new_array b (h, es) = (Ok (length h), (h ++ [b], es)).
Proof. reflexivity. Qed.

Lemma contents_run r b h es :
  nth_error h r = Some b -> Store.contents r (h, es) = (Ok b, (h, es)).
Proof. intros H. unfold Store.contents. cbn [fst]. rewrite H. reflexivity. Qed.

Lemma length_of_run r b h es :
  nth_error h r = Some b -> Store.length_of r (h, es) = (Ok (len b), (h, es)).
Proof.
  intros H. unfold Store.length_of.
  rewrite bind_run, (contents_run r b) by exact H. reflexivity.
Qed.

Lemma nth_error_last {A} (h : list A) b : nth_error (h ++ [b]) (length h) = Some b.
Proof. rewrite nth_error_app2, Nat.sub_diag by lia. reflexivity. Qed.

Lemma nth_error_before {A} (h : list A) b t :
  nth_error ((h ++ [b]) ++ t) (length h) = Some b.
Proof.
  rewrite nth_error_app1 by (rewrite length_app; cbn [length]; lia).
  apply nth_error_last.
Qed.

Lemma nth_error_extend {A} (h t : list A) r b :
  nth_error h r = Some b -> nth_error (h ++ t) r = Some b.
Proof.
  intros H. rewrite nth_error_app1; [exact H|].
  apply nth_error_Some. rewrite H. discriminate.
Qed.

Lemma store_last {A} (h : list A) b b' :
  Store.store (h ++ [b]) (length h) b' = h ++ [b'].
Proof.
  induction h as [|x h IH]; cbn [Store.store app length]; [|rewrite IH]; reflexivity.
Qed.

Lemma modify_last h es b f :
  Store.modify (length h) f (h ++ [b], es)
  = match f b with
    | Ok b' => (Ok tt, (h ++ [b'], es))
    | Throw e => (Throw e, (h ++ [b], es))
    end.
Proof.
  unfold Store.modify. cbn [fst snd]. rewrite nth_error_last.
  destruct (f b); [rewrite store_last|]; reflexivity.
Qed.

(** A read of the array allocated just before the one being filled. *)
Lemma length_of_before h b t es :
  Store.length_of (length h) ((h ++ [b]) ++ t, es)
  = (Ok (len b), ((h ++ [b]) ++ t, es)).
Proof. apply length_of_run, nth_error_before. Qed.

Lemma setUint32_last h es b off v le :
  Store.DataView_setUint32 (length h) off v le (h ++ [b], es)
  = match DataView_setUint32 b off v le with
    | Ok b' => (Ok tt, (h ++ [b'], es))
    | Throw e => (Throw e, (h ++ [b], es))
    end.
Proof. apply modify_last. Qed.

Lemma setUint16_last h es b off v le :
  Store.DataView_setUint16 (length h) off v le (h ++ [b], es)
  = match DataView_setUint16 b off v le with
    | Ok b' => (Ok tt, (h ++ [b'], es))
    | Throw e => (Throw e, (h ++ [b], es))
    end.
Proof. apply modify_last. Qed.

(** One field written through the view of the array allocated last. *)
Ltac view_write :=
  rewrite bind_run;
  first [ rewrite setUint32_last | rewrite setUint16_last ];
  first [ rewrite DataView_setUint32_prefix by (unfold len; simpl length; lia)
        | rewrite DataView_setUint16_prefix by (unfold len; simpl length; lia) ];
  match goal with
  | |- context [splice ?p ?b ?o] =>
    let r := eval cbv [splice firstn skipn app Z.to_nat Pos.to_nat
                       Pos.iter_op Nat.add length le_bytes]
             in (splice p b o) in
    change (splice p b o) with r
  end;
  cbv beta iota.

Lemma set_name h es fb pre old :
  length old = length fb ->
  Store.Uint8Array_set (length (h ++ [fb])) (length h) (len pre)
    ((h ++ [fb]) ++ [pre ++ old], es)
  = (Ok tt, ((h ++ [fb]) ++ [pre ++ fb], es)).
Proof.
  intros H. unfold Store.Uint8Array_set.
  rewrite bind_run, (contents_run _ fb) by apply nth_error_before.
  rewrite modify_last, Uint8Array_set_suffix by exact H. reflexivity.
Qed.

(** The start of a record: the name is encoded, then the zeroed array of the
    record is allocated. *)
Ltac record_start fixed :=
  rewrite bind_run; unfold Store.TextEncoder_encode at 1;
  rewrite new_array_run; cbv beta iota;
  rewrite bind_run, (length_of_run _ _ _ _ (nth_error_last _ _));
  cbv beta iota;
  rewrite bind_run; unfold Store.Uint8Array_new at 1;
  rewrite new_array_run; cbv beta iota;
  match goal with
  | |- context [Uint8Array_new (fixed + ?n)] =>
    replace (Uint8Array_new (fixed + n))
      with (repeat x00 (Z.to_nat fixed) ++ Uint8Array_new n)
      by (symmetry; apply (Uint8Array_new_add (Z.to_nat fixed)), len_nonneg)
  end;
  cbv [repeat Z.to_nat Pos.to_nat Pos.iter_op Nat.add].

Lemma createLocalFileHeader_run name fileSize crc h es :
  Store.createLocalFileHeader name fileSize crc (h, es)
  = (Ok (length (h ++ [TextEncoder_encode name])),
     ((h ++ [TextEncoder_encode name])
      ++ [local_header_fields fileSize crc (len (TextEncoder_encode name))
          ++ TextEncoder_encode name], es)).
Proof.
  unfold Store.createLocalFileHeader.
  record_start 30.
  do 9 view_write.
  rewrite bind_run, length_of_before. cbv beta iota.
  do 2 view_write.
  rewrite bind_run.
  match goal with
  | |- context [Store.Uint8Array_set _ _ 30 ((_ ++ _) ++ [?pre ++ _], _)] =>
    change 30 with (len pre)
  end.
  rewrite set_name; [reflexivity|].
  unfold Uint8Array_new, len. rewrite repeat_length, Nat2Z.id. reflexivity.
Qed.

Lemma createCentralDirectoryEntry_run name fileSize crc off h es :
  Store.createCentralDirectoryEntry name fileSize crc off (h, es)
  = (Ok (length (h ++ [TextEncoder_encode name])),
     ((h ++ [TextEncoder_encode name])
      ++ [central_record_fields fileSize crc (len (TextEncoder_encode name)) off
          ++ TextEncoder_encode name], es)).
Proof.
  unfold Store.createCentralDirectoryEntry.
  record_start 46.
  do 10 view_write.
  rewrite bind_run, length_of_before. cbv beta iota.
  do 7 view_write.
  rewrite bind_run.
  match goal with
  | |- context [Store.Uint8Array_set _ _ 46 ((_ ++ _) ++ [?pre ++ _], _)] =>
    change 46 with (len pre)
  end.
  rewrite set_name; [reflexivity|].
  unfold Uint8Array_new, len. rewrite repeat_length, Nat2Z.id. reflexivity.
Qed.

Lemma createEndOfCentralDirectory_run n size off h es :
  Store.createEndOfCentralDirectory n size off (h, es)
  = (Ok (length h), (h ++ [end_record n size off], es)).
Proof.
  unfold Store.createEndOfCentralDirectory.
  rewrite bind_run. unfold Store.Uint8Array_new at 1.
  rewrite new_array_run. cbv beta iota.
  replace (Uint8Array_new 22) with (repeat x00 22 ++ []) by apply app_nil_r.
  cbv [repeat].
  do 8 view_write.
  rewrite app_nil_r. reflexivity.
Qed.

(** *** The loops *)

Lemma resolves_extend h t rs bs : Store.resolves h rs bs -> Store.resolves (h ++ t) rs bs.
Proof.
  unfold Store.resolves. induction 1; constructor; [|assumption].
  apply nth_error_extend. assumption.
Qed.

Lemma resolves_app h rs1 bs1 rs2 bs2 :
  Store.resolves h rs1 bs1 -> Store.resolves h rs2 bs2 ->
  Store.resolves h (rs1 ++ rs2) (bs1 ++ bs2).
Proof. apply Forall2_app. Qed.

Lemma nth_allocated (h : Store.heap) r :
  (r < length h)%nat -> nth_error h r = Some (nth r h []).
Proof. intros H. apply nth_error_nth'. exact H. Qed.

Lemma entry_value_extend h t e :
  (Store.entry_data e < length h)%nat ->
  Store.entry_value (h ++ t) e = Store.entry_value h e.
Proof.
  intros H. unfold Store.entry_value. rewrite app_nth1 by exact H. reflexivity.
Qed.

Lemma entry_values_extend h t es :
  Forall (fun e => (Store.entry_data e < length h)%nat) es ->
  map (Store.entry_value (h ++ t)) es = map (Store.entry_value h) es.
Proof.
  induction 1 as [|e es H _ IH]; cbn [map]; [reflexivity|].
  rewrite IH, entry_value_extend by exact H. reflexivity.
Qed.

(** One iteration of the first loop: four arrays are allocated, the name
    and the local header, the name again and the central record; the
    payload is only read. *)
Lemma local_pass_run st e h es :
  (Store.entry_data e < length h)%nat ->
  let v := Store.entry_value h e in
  exists t hdr cen,
    Store.local_pass st e (h, es)
    = (Ok {| Store.zipParts := Store.zipParts st ++ [hdr; Store.entry_data e];
             Store.centralDirectory := Store.centralDirectory st ++ [cen];
             Store.offset := Store.offset st + len (local_record v) |},
       (h ++ t, es))
    /\ nth_error (h ++ t) hdr = Some (local_header v)
    /\ nth_error (h ++ t) cen = Some (central_record v (Store.offset st)).
Proof.
  intros Hr v.
  pose proof (nth_allocated h _ Hr) as Hd.
  change (nth (Store.entry_data e) h []) with (data v) in Hd.
  set (fb := TextEncoder_encode (Store.entry_filename e)).
  exists [fb; local_header v; fb; central_record v (Store.offset st)].
  exists (length (h ++ [fb])).
  exists (length (((h ++ [fb]) ++ [local_header v]) ++ [fb])).
  assert (E4 : h ++ [fb; local_header v; fb; central_record v (Store.offset st)]
               = (((h ++ [fb]) ++ [local_header v]) ++ [fb])
                 ++ [central_record v (Store.offset st)])
    by (rewrite <- !app_assoc; reflexivity).
  rewrite E4. split; [|split].
  - unfold Store.local_pass.
    rewrite bind_run, (length_of_run _ _ _ _ Hd). cbv beta iota.
    rewrite bind_run, createLocalFileHeader_run. cbv beta iota.
    fold fb. fold (name_bytes v) in fb.
    assert (Hd1 : nth_error ((h ++ [fb]) ++ [local_header v]) (Store.entry_data e)
                  = Some (data v))
      by (rewrite <- app_assoc; apply nth_error_extend; exact Hd).
    change (local_header_fields (len (data v)) (Store.entry_crc32 e) (len fb) ++ fb)
      with (local_header v).
    rewrite bind_run, (length_of_run _ _ _ _ Hd1). cbv beta iota.
    rewrite bind_run, createCentralDirectoryEntry_run. cbv beta iota.
    fold fb.
    change (central_record_fields (len (data v)) (Store.entry_crc32 e) (len fb)
              (Store.offset st) ++ fb)
      with (central_record v (Store.offset st)).
    rewrite bind_run, (length_of_run _ (local_header v)); cycle 1.
    { rewrite <- app_assoc. apply nth_error_extend, nth_error_last. }
    cbv beta iota.
    rewrite bind_run, (length_of_run _ (data v)); cycle 1.
    { rewrite <- !app_assoc. apply nth_error_extend. exact Hd. }
    cbv beta iota. unfold Store.ret. unfold local_record.
    rewrite len_app, <- app_assoc. reflexivity.
  - rewrite <- app_assoc. apply nth_error_extend, nth_error_last.
  - apply nth_error_last.
Qed.

Lemma local_loop_run l : forall st h es,
  Forall (fun e => (Store.entry_data e < length h)%nat) l ->
  let vs := map (Store.entry_value h) l in
  exists t zp cd,
    Store.for_each Store.local_pass l st (h, es)
    = (Ok {| Store.zipParts := Store.zipParts st ++ zp;
             Store.centralDirectory := Store.centralDirectory st ++ cd;
             Store.offset := Store.offset st + len (local_section vs) |},
       (h ++ t, es))
    /\ Store.resolves (h ++ t) zp (local_parts vs)
    /\ Store.resolves (h ++ t) cd (central_parts (Store.offset st) vs).
Proof.
  induction l as [|e l IH]; intros st h es V vs.
  - exists [], [], []. unfold vs. cbn [map Store.for_each local_section flat_map
                                        local_parts central_parts].
    change (len []) with 0. rewrite !app_nil_r, Z.add_0_r.
    split; [destruct st; reflexivity|]. split; constructor.
  - inversion V as [|e' l' Ve Vl]; subst e' l'.
    destruct (local_pass_run st e h es Ve) as (t1 & hdr & cen & E1 & Hh & Hc).
    set (v := Store.entry_value h e) in *.
    assert (Vl1 : Forall (fun e => (Store.entry_data e < length (h ++ t1))%nat) l).
    { eapply Forall_impl; [|exact Vl]. cbv beta. intros a Ha.
      rewrite length_app. lia. }
    destruct (IH {| Store.zipParts := Store.zipParts st ++ [hdr; Store.entry_data e];
                    Store.centralDirectory := Store.centralDirectory st ++ [cen];
                    Store.offset := Store.offset st + len (local_record v) |}
                (h ++ t1) es Vl1) as (t2 & zp2 & cd2 & E2 & Hz2 & Hc2).
    cbv zeta in E2, Hz2, Hc2. rewrite entry_values_extend in E2, Hz2, Hc2 by exact Vl.
    cbn [Store.zipParts Store.centralDirectory Store.offset] in E2, Hc2.
    exists (t1 ++ t2), ([hdr; Store.entry_data e] ++ zp2), ([cen] ++ cd2).
    split; [|split].
    + cbn [Store.for_each]. rewrite bind_run, E1. cbv beta iota. rewrite E2.
      unfold vs. cbn [map]. fold v. rewrite local_section_cons, len_app.
      rewrite <- !app_assoc, Z.add_assoc. reflexivity.
    + unfold vs. cbn [map]. fold v. rewrite app_assoc.
      apply (resolves_app _ [hdr; Store.entry_data e] [local_header v; data v]);
        [|exact Hz2].
      apply resolves_extend. constructor; [exact Hh|].
      constructor; [|constructor].
      apply nth_error_extend, nth_allocated. exact Ve.
    + unfold vs. cbn [map central_parts]. fold v. rewrite app_assoc.
      apply (resolves_app _ [cen] [central_record v (Store.offset st)]);
        [|exact Hc2].
      apply resolves_extend. constructor; [exact Hc | constructor].
Qed.

Lemma central_loop_run cds : forall bs zp n h es,
  Store.resolves h cds bs ->
  Store.for_each Store.central_pass cds (zp, n) (h, es)
  = (Ok (zp ++ cds, n + len (concat bs)), (h, es)).
Proof.
  induction cds as [|c cds IH]; intros bs zp n h es R; inversion R; subst.
  - cbn [Store.for_each concat]. change (len []) with 0.
    rewrite app_nil_r, Z.add_0_r. reflexivity.
  - cbn [Store.for_each]. rewrite bind_run. unfold Store.central_pass at 1.
    rewrite bind_run, (length_of_run _ _ _ _ H1). cbv beta iota.
    unfold Store.ret. cbn [fst snd]. rewrite (IH _ _ _ _ _ H3).
    cbn [concat]. rewrite len_app, <- app_assoc, Z.add_assoc. reflexivity.
Qed.

Lemma size_loop_run rs : forall bs sum h es,
  Store.resolves h rs bs ->
  Store.for_each Store.size_pass rs sum (h, es)
  = (Ok (sum + len (concat bs)), (h, es)).
Proof.
  induction rs as [|r rs IH]; intros bs sum h es R; inversion R; subst.
  - cbn [Store.for_each concat]. change (len []) with 0.
    rewrite Z.add_0_r. reflexivity.
  - cbn [Store.for_each]. rewrite bind_run. unfold Store.size_pass at 1.
    rewrite bind_run, (length_of_run _ _ _ _ H1). cbv beta iota.
    unfold Store.ret. rewrite (IH _ _ _ _ H3).
    cbn [concat]. rewrite len_app, Z.add_assoc. reflexivity.
Qed.

(** The third loop writes into [zipArray], the array allocated last, and
    reads the parts. *)
Lemma copy_loop_run rs : forall bs pre old h es,
  Store.resolves h rs bs ->
  (length (concat bs) <= length old)%nat ->
  Store.for_each (Store.copy_pass (length h)) rs (len pre) (h ++ [pre ++ old], es)
  = (Ok (len pre + len (concat bs)),
     (h ++ [pre ++ concat bs ++ skipn (length (concat bs)) old], es)).
Proof.
  induction rs as [|r rs IH]; intros bs pre old h es R L; inversion R; subst.
  - cbn [Store.for_each concat app length skipn]. change (len []) with 0.
    rewrite Z.add_0_r. reflexivity.
  - cbn [concat] in *. rewrite length_app in L.
    cbn [Store.for_each]. rewrite bind_run. unfold Store.copy_pass at 1.
    rewrite bind_run. unfold Store.Uint8Array_set.
    rewrite bind_run, (contents_run r y) by (apply nth_error_extend; exact H1).
    cbv beta iota.
    rewrite modify_last, Uint8Array_set_middle by lia. cbv beta iota.
    rewrite bind_run, (length_of_run r y) by (apply nth_error_extend; exact H1).
    cbv beta iota. unfold Store.ret.
    rewrite <- len_app, app_assoc.
    rewrite (IH _ _ _ _ _ H3) by (rewrite length_skipn; lia).
    rewrite skipn_skipn, !len_app, length_app, <- !app_assoc.
    rewrite (Nat.add_comm (length (concat l'))), Z.add_assoc. reflexivity.
Qed.

(** [createZip] on the store: it succeeds, allocates the arrays [t] behind
    those that exist, and returns the bytes that [createZip] on values
    returns. *)
Lemma createZip_run h es :
  Store.well_formed (h, es) ->
  exists t,
    Store.createZip (h, es)
    = (Ok {| blob_bytes := archive (map (Store.entry_value h) es);
             blob_type := "application/zip" |},
       (h ++ t, es)).
Proof.
  unfold Store.well_formed. cbn [fst snd]. intros V.
  destruct (local_loop_run es
              {| Store.zipParts := []; Store.centralDirectory := [];
                 Store.offset := 0 |} h es V)
    as (t1 & zp & cd & E1 & Rz & Rc).
  cbv zeta in E1, Rz, Rc.
  cbn [Store.zipParts Store.centralDirectory Store.offset app] in E1, Rc.
  rewrite Z.add_0_l in E1.
  set (vs := map (Store.entry_value h) es) in *.
  set (bs := (local_parts vs ++ central_parts 0 vs)
             ++ [end_record (Z.of_nat (length es))
                   (len (concat (central_parts 0 vs))) (len (local_section vs))]).
  set (h1 := h ++ t1) in *.
  assert (Rall : Store.resolves (h1 ++ [last bs []]) ((zp ++ cd) ++ [length h1]) bs).
  { unfold bs. rewrite last_last. apply resolves_app.
    - apply resolves_extend, resolves_app; assumption.
    - constructor; [apply nth_error_last | constructor]. }
  unfold bs in Rall at 1. rewrite last_last in Rall.
  exists (t1 ++ [end_record (Z.of_nat (length es))
                   (len (concat (central_parts 0 vs))) (len (local_section vs));
                 concat bs]).
  unfold Store.createZip.
  rewrite bind_run. unfold Store.get_entries at 1. cbn [snd]. cbv beta iota.
  rewrite bind_run, E1. cbv beta iota.
  cbn [Store.zipParts Store.centralDirectory Store.offset].
  rewrite bind_run, (central_loop_run _ _ _ _ _ _ Rc). cbv beta iota.
  rewrite Z.add_0_l.
  rewrite bind_run, createEndOfCentralDirectory_run. cbv beta iota.
  rewrite bind_run, (size_loop_run _ _ _ _ _ Rall). cbv beta iota.
  rewrite Z.add_0_l.
  rewrite bind_run. unfold Store.Uint8Array_new at 1.
  rewrite new_array_run. cbv beta iota.
  pose proof (copy_loop_run _ bs [] (Uint8Array_new (len (concat bs))) _ es Rall)
    as C.
  rewrite !app_nil_l in C. change (len []) with 0 in C.
  rewrite bind_run, C by (unfold Uint8Array_new, len; rewrite repeat_length; lia).
  cbv beta iota.
  rewrite skipn_all2, app_nil_r
    by (unfold Uint8Array_new, len; rewrite repeat_length; lia).
  unfold Store.new_Blob.
  rewrite bind_run, (contents_run _ (concat bs)) by apply nth_error_last.
  cbv beta iota. unfold Store.ret.
  assert (Eb : concat bs = archive vs).
  { unfold bs, archive.
    rewrite !concat_app, concat_local_parts, !concat_central_parts.
    cbn [concat]. rewrite app_nil_r, <- app_assoc. unfold vs.
    rewrite length_map. reflexivity. }
  rewrite Eb. unfold h1. rewrite <- !app_assoc. reflexivity.
Qed.

End StoreFacts.

(** C9.  [createZip] does not change the object: run on the store, it
    succeeds and leaves the [entries] array as it was (the same entries in
    the same order, with their names, payload references and stored
    checksums), and every array that existed before the call, so the
    payload of every entry, holds the bytes it held; all it writes are
    arrays it allocates.  The buffer is the one [createZip] computes on
    values, where the object is returned as it was. *)
Theorem createZip_writes_own_arrays_only h es :
  Store.well_formed (h, es) ->
  exists blob h',
    Store.createZip (h, es) = (Ok blob, (h', es))
    /\ (forall r b, nth_error h r = Some b -> nth_error h' r = Some b)
    /\ map (Store.entry_value h') es = map (Store.entry_value h) es
    /\ createZip (Store.object_value (h, es))
       = (Ok blob, Store.object_value (h', es)).
Proof.
  intros V. destruct (StoreFacts.createZip_run h es V) as (t & E).
  eexists. exists (h ++ t). split; [exact E|]. split; [|split].
  - intros r b H. apply StoreFacts.nth_error_extend. exact H.
  - apply StoreFacts.entry_values_extend. exact V.
  - rewrite createZip_closed. unfold Store.object_value. cbn [fst snd entries].
    rewrite StoreFacts.entry_values_extend by exact V. reflexivity.
Qed.

Lemma createZip_writes_own_arrays_only_witness :
  exists blob h',
    Store.createZip Store.shared_payload = (Ok blob, (h', snd Store.shared_payload))
    /\ nth_error h' 0 = Some [x89; x50; x4e; x47].
Proof.
  destruct (createZip_writes_own_arrays_only
              (fst Store.shared_payload) (snd Store.shared_payload))
    as (blob & h' & E & F & _).
  - repeat constructor.
  - exists blob, h'. split; [exact E|]. apply F. reflexivity.
Defined.

(** ** Programs on the store *)

Module ProgramFacts.
Import StoreFacts.

Lemma store_length {A} (l : list A) i v : length (Store.store l i v) = length l.
Proof.
  revert i. induction l as [|x l IH]; intros [|i]; cbn [Store.store length];
    [reflexivity..|rewrite IH; reflexivity].
Qed.

Lemma nth_error_store_other {A} (l : list A) i j v :
  i <> j -> nth_error (Store.store l i v) j = nth_error l j.
Proof.
  revert i j. induction l as [|x l IH]; intros [|i] [|j] H;
    cbn [Store.store nth_error]; try reflexivity; [contradiction|].
  apply IH. congruence.
Qed.

Lemma nth_error_store_same {A} (l : list A) i v x :
  nth_error l i = Some x -> nth_error (Store.store l i v) i = Some v.
Proof.
  revert i. induction l as [|y l IH]; intros [|i] H; cbn [Store.store nth_error] in *;
    try discriminate; [reflexivity | apply IH; exact H].
Qed.

Lemma store_middle {A} (pre : list A) x rest v :
  Store.store (pre ++ x :: rest) (length pre) v = pre ++ v :: rest.
Proof.
  induction pre as [|y pre IH]; cbn [Store.store app length]; [|rewrite IH]; reflexivity.
Qed.

Lemma write_last h es b i v :
  Store.write (length h) i v (h ++ [b], es)
  = (Ok tt, (h ++ [Store.store b i (byte_of_Z v)], es)).
Proof. unfold Store.write. rewrite modify_last. reflexivity. Qed.

(** The loop of [base64ToUint8Array] fills the new array with the code
    units, each stored as a byte. *)
Lemma fill_loop_run suf : forall pre h es,
  Store.for_each
    (fun i c => Store.bind (Store.write (length h) i (Z.of_N c))
                  (fun _ => Store.ret (S i)))
    suf (length pre) (h ++ [pre ++ repeat x00 (length suf)], es)
  = (Ok (length pre + length suf)%nat, (h ++ [pre ++ map byte_of_N suf], es)).
Proof.
  induction suf as [|c suf IH]; intros pre h es.
  - cbn [Store.for_each length repeat map]. rewrite Nat.add_0_r. reflexivity.
  - cbn [Store.for_each length repeat map]. rewrite !bind_run.
    rewrite write_last, store_middle. cbv beta iota.
    unfold Store.ret at 1.
    replace (pre ++ byte_of_Z (Z.of_N c) :: repeat x00 (length suf))
      with ((pre ++ [byte_of_N c]) ++ repeat x00 (length suf))
      by (rewrite <- app_assoc; reflexivity).
    replace (S (length pre)) with (length (pre ++ [byte_of_N c]))
      by (rewrite length_app; cbn [length]; lia).
    rewrite IH, length_app, <- app_assoc. cbn [length app].
    do 2 f_equal. lia.
Qed.

Lemma base64ToUint8Array_run base64 h es :
  Store.base64ToUint8Array base64 (h, es)
  = match base64ToUint8Array base64 with
    | Ok a => (Ok (length h), (h ++ [a], es))
    | Throw e => (Throw e, (h, es))
    end.
Proof.
  unfold Store.base64ToUint8Array, base64ToUint8Array.
  rewrite bind_run. unfold Store.lift at 1.
  destruct (atob base64) as [bin|e]; [|reflexivity].
  cbn [bindR]. rewrite bind_run. unfold Store.Uint8Array_new at 1.
  rewrite new_array_run. cbv beta iota.
  unfold Uint8Array_new. rewrite Nat2Z.id, bind_run.
  pose proof (fill_loop_run bin [] h es) as F. cbn [app length] in F.
  rewrite F. reflexivity.
Qed.

Lemma addFile_run filename d isBase64 h es :
  Store.addFile filename d isBase64 (h, es)
  = match d with
    | Store.DataString s =>
      match (if isBase64 then base64ToUint8Array s
             else Ok (TextEncoder_encode s)) with
      | Ok a =>
        (Ok tt, (h ++ [a],
                 es ++ [{| Store.entry_filename := filename;
                           Store.entry_data := length h;
                           Store.entry_crc32 := calculateCRC32 a |}]))
      | Throw e => (Throw e, (h, es))
      end
    | Store.DataBytes r =>
      match nth_error h r with
      | Some a =>
        (Ok tt, (h, es ++ [{| Store.entry_filename := filename;
                              Store.entry_data := r;
                              Store.entry_crc32 := calculateCRC32 a |}]))
      | None => (Throw TypeError, (h, es))
      end
    | Store.DataUndefined => (Throw TypeError, (h, es))
    end.
Proof.
  unfold Store.addFile. destruct d as [s|r|].
  - destruct isBase64.
    + rewrite !bind_run, base64ToUint8Array_run.
      destruct (base64ToUint8Array s) as [a|e]; [|reflexivity].
      unfold Store.ret at 1. cbv beta iota.
      rewrite bind_run. unfold Store.calculateCRC32.
      rewrite bind_run, (contents_run _ a) by apply nth_error_last.
      reflexivity.
    + rewrite !bind_run. unfold Store.TextEncoder_encode at 1.
      rewrite new_array_run. unfold Store.ret at 1. cbv beta iota.
      rewrite bind_run. unfold Store.calculateCRC32.
      rewrite bind_run, (contents_run _ (TextEncoder_encode s)) by apply nth_error_last.
      reflexivity.
  - rewrite bind_run. unfold Store.ret at 1. cbv beta iota.
    rewrite bind_run. unfold Store.calculateCRC32, Store.contents.
    rewrite bind_run. cbn [fst].
    destruct (nth_error h r) as [a|]; reflexivity.
  - reflexivity.
Qed.

Lemma addFile_cases filename d isBase64 h es :
  (exists err, Store.addFile filename d isBase64 (h, es) = (Throw err, (h, es)))
  \/ (exists t e,
        Store.addFile filename d isBase64 (h, es) = (Ok tt, (h ++ t, es ++ [e]))
        /\ Store.checksum_current (h ++ t) e
        /\ Store.entry_filename e = filename).
Proof.
  rewrite addFile_run. destruct d as [s|r|].
  - destruct (if isBase64 then base64ToUint8Array s else Ok (TextEncoder_encode s))
      as [a|e]; [right|left; eauto].
    exists [a]. eexists. split; [reflexivity|]. split; [|reflexivity].
    exists a. cbn [Store.entry_data Store.entry_crc32].
    split; [apply nth_error_last | reflexivity].
  - destruct (nth_error h r) as [a|] eqn:E; [right|left; eauto].
    exists []. eexists. rewrite app_nil_r. split; [reflexivity|]. split; [|reflexivity].
    exists a. split; [exact E | reflexivity].
  - left. eauto.
Qed.

Lemma addImageFromDataURL_cases filename dataURL h es :
  (exists err, Store.addImageFromDataURL filename dataURL (h, es)
               = (Throw err, (h, es)))
  \/ (exists t e,
        Store.addImageFromDataURL filename dataURL (h, es)
        = (Ok tt, (h ++ t, es ++ [e]))
        /\ Store.checksum_current (h ++ t) e
        /\ Store.entry_filename e = filename).
Proof.
  unfold Store.addImageFromDataURL.
  destruct (nth_error (String_split comma dataURL) 1); apply addFile_cases.
Qed.

Lemma write_run a i v h es :
  Store.step (Store.Write a i v) (h, es)
  = (match nth_error h a with
     | Some b => Store.store h a (Store.store b i (byte_of_Z v))
     | None => h
     end, es).
Proof.
  cbn [Store.step]. unfold Store.write, Store.modify. cbn [fst snd].
  destruct (nth_error h a); reflexivity.
Qed.

(** A step either adds arrays and at most one entry behind those that
    exist, or writes one byte of one array. *)
Lemma step_cases c h es :
  Store.well_formed (h, es) ->
  (exists t n,
     Store.step c (h, es) = (h ++ t, es ++ n)
     /\ (n = [] \/ exists e, n = [e] /\ Store.checksum_current (h ++ t) e))
  \/ (exists a i v b,
        c = Store.Write a i v
        /\ nth_error h a = Some b
        /\ Store.step c (h, es)
           = (Store.store h a (Store.store b i (byte_of_Z v)), es)).
Proof.
  intros V. destruct c as [f d b|f u| |bytes|a i v].
  - left. cbn [Store.step].
    destruct (addFile_cases f d b h es) as [(err & E)|(t & e & E & F & _)]; rewrite E.
    + exists [], []. rewrite !app_nil_r. split; [reflexivity | left; reflexivity].
    + exists t, [e]. split; [reflexivity | right; eauto].
  - left. cbn [Store.step].
    destruct (addImageFromDataURL_cases f u h es) as [(err & E)|(t & e & E & F & _)];
      rewrite E.
    + exists [], []. rewrite !app_nil_r. split; [reflexivity | left; reflexivity].
    + exists t, [e]. split; [reflexivity | right; eauto].
  - left. cbn [Store.step]. destruct (createZip_run h es V) as (t & E). rewrite E.
    exists t, []. rewrite app_nil_r. split; [reflexivity | left; reflexivity].
  - left. exists [bytes], []. rewrite app_nil_r. split; [reflexivity | left; reflexivity].
  - rewrite write_run. destruct (nth_error h a) as [b|] eqn:E.
    + right. exists a, i, v, b. repeat split. exact E.
    + left. exists [], []. rewrite !app_nil_r. split; [reflexivity | left; reflexivity].
Qed.

Lemma well_formed_extend h t es n :
  Store.well_formed (h, es) ->
  (n = [] \/ exists e, n = [e] /\ Store.checksum_current (h ++ t) e) ->
  Store.well_formed (h ++ t, es ++ n).
Proof.
  unfold Store.well_formed. cbn [fst snd]. intros V N.
  apply Forall_app. split.
  - eapply Forall_impl; [|exact V]. cbv beta. intros e H.
    rewrite length_app. lia.
  - destruct N as [->|(e & -> & b & H & _)]; constructor; [|constructor].
    apply nth_error_Some. rewrite H. discriminate.
Qed.

(** What a step keeps: the entries that exist, the arrays it does not
    write, and the length of every array. *)
Lemma step_keeps c h es :
  Store.well_formed (h, es) ->
  let s' := Store.step c (h, es) in
  Store.well_formed s'
  /\ (exists n, snd s' = es ++ n)
  /\ (forall a b, Store.writes a c = false ->
                  nth_error h a = Some b -> nth_error (fst s') a = Some b)
  /\ (forall a b, nth_error h a = Some b ->
                  exists b', nth_error (fst s') a = Some b' /\ length b' = length b).
Proof.
  intros V s'. subst s'.
  destruct (step_cases c h es V) as [(t & n & E & N)|(a & i & v & b & -> & Ha & E)];
    rewrite E; cbn [fst snd].
  - split; [apply well_formed_extend; assumption|].
    split; [exists n; reflexivity|]. split.
    + intros a b _ H. apply nth_error_extend. exact H.
    + intros a b H. exists b. split; [apply nth_error_extend; exact H | reflexivity].
  - split; [|split; [|split]].
    + unfold Store.well_formed in *. cbn [fst snd] in *.
      rewrite store_length. exact V.
    + exists []. rewrite app_nil_r. reflexivity.
    + intros a' b' W H. cbn [Store.writes] in W.
      apply Nat.eqb_neq in W. rewrite nth_error_store_other by exact W. exact H.
    + intros a' b' H. destruct (Nat.eq_dec a a') as [<-|N].
      * rewrite (nth_error_store_same _ _ _ _ Ha). rewrite Ha in H. injection H as <-.
        eexists. split; [reflexivity | apply store_length].
      * rewrite nth_error_store_other by exact N. eauto.
Qed.

Lemma run_cons c p s : Store.run (c :: p) s = Store.run p (Store.step c s).
Proof. reflexivity. Qed.

Lemma run_app p q s : Store.run (p ++ q) s = Store.run q (Store.run p s).
Proof. apply fold_left_app. Qed.

Lemma unwritten_cons a c p :
  Store.unwritten a (c :: p) = negb (Store.writes a c) && Store.unwritten a p.
Proof. unfold Store.unwritten. cbn [existsb]. apply negb_orb. Qed.

Lemma run_keeps p : forall s,
  Store.well_formed s ->
  let s' := Store.run p s in
  Store.well_formed s'
  /\ (exists n, snd s' = snd s ++ n)
  /\ (forall a b, Store.unwritten a p = true ->
                  nth_error (fst s) a = Some b -> nth_error (fst s') a = Some b)
  /\ (forall a b, nth_error (fst s) a = Some b ->
                  exists b', nth_error (fst s') a = Some b' /\ length b' = length b).
Proof.
  induction p as [|c p IH]; intros [h es] V; cbv zeta.
  - cbn [Store.run fold_left]. split; [exact V|].
    split; [exists []; symmetry; apply app_nil_r|]. split; eauto.
  - rewrite run_cons.
    destruct (step_keeps c h es V) as (V1 & (n1 & E1) & K1 & L1).
    cbv zeta in V1, E1, K1, L1.
    destruct (IH _ V1) as (V2 & (n2 & E2) & K2 & L2).
    cbv zeta in V2, E2, K2, L2.
    split; [exact V2|]. split; [|split].
    + exists (n1 ++ n2). rewrite E2, E1, app_assoc. reflexivity.
    + intros a b U H. rewrite unwritten_cons in U.
      apply andb_prop in U. destruct U as [U1 U2].
      apply negb_true_iff in U1. apply K2; [exact U2|]. apply K1; assumption.
    + intros a b H. cbn [fst] in H. destruct (L1 a b H) as (b1 & H1 & Len1).
      destruct (L2 a b1 H1) as (b2 & H2 & Len2).
      exists b2. split; [exact H2 | congruence].
Qed.

Lemma new_well_formed : Store.well_formed Store.new_CustomZipCreator.
Proof. constructor. Qed.

Lemma run_well_formed p : Store.well_formed (Store.run p Store.new_CustomZipCreator).
Proof. apply (run_keeps p _ new_well_formed). Qed.

(** The entry a step adds stores the checksum of the bytes its array holds
    when the step ends. *)
Lemma step_adds c s e :
  Store.well_formed s ->
  snd (Store.step c s) = snd s ++ [e] ->
  Store.checksum_current (fst (Store.step c s)) e.
Proof.
  destruct s as [h es]. intros V H.
  destruct (step_cases c h es V) as [(t & n & E & N)|(a & i & v & b & -> & Ha & E)];
    rewrite E in *; cbn [fst snd] in *.
  - apply app_inv_head in H. subst n.
    destruct N as [N|(e' & N & F)]; [discriminate|]. injection N as <-. exact F.
  - apply (f_equal (@length _)) in H. rewrite length_app in H. cbn [length] in H. lia.
Qed.

(** An entry, once added, stays as it is at its place; its array keeps its
    length, and its bytes as long as no step writes it. *)
Lemma entry_kept before c later e :
  let s0 := Store.run before Store.new_CustomZipCreator in
  let s1 := Store.step c s0 in
  let s2 := Store.run later s1 in
  snd s1 = snd s0 ++ [e] ->
  Store.well_formed s2
  /\ nth_error (snd s2) (length (snd s0)) = Some e
  /\ exists b,
       nth_error (fst s1) (Store.entry_data e) = Some b
       /\ Store.entry_crc32 e = calculateCRC32 b
       /\ (exists b', nth_error (fst s2) (Store.entry_data e) = Some b'
                      /\ length b' = length b)
       /\ (Store.unwritten (Store.entry_data e) later = true ->
           nth_error (fst s2) (Store.entry_data e) = Some b).
Proof.
  intros s0 s1 s2 H.
  pose proof (run_well_formed before) as V0. fold s0 in V0.
  destruct (step_adds c s0 e V0 H) as (b & Hb & Hc). fold s1 in Hb.
  assert (V1 : Store.well_formed s1).
  { destruct s0 as [h es]. apply (step_keeps c h es V0). }
  destruct (run_keeps later s1 V1) as (V2 & (n & E) & K & L).
  cbv zeta in V2, E, K, L. fold s2 in V2, E, K, L.
  split; [exact V2|]. split.
  - rewrite E, H, <- app_assoc, nth_error_app2, Nat.sub_diag by lia. reflexivity.
  - exists b. split; [exact Hb|]. split; [exact Hc|]. split.
    + apply L. exact Hb.
    + intros U. apply K; assumption.
Qed.

(** A step adds at most one entry, behind those that exist. *)
Lemma step_entries c s :
  Store.well_formed s ->
  snd (Store.step c s) = snd s
  \/ exists e, snd (Store.step c s) = snd s ++ [e].
Proof.
  destruct s as [h es]. intros V.
  destruct (step_cases c h es V) as [(t & n & E & N)|(a & i & v & b & _ & _ & E)];
    rewrite E; cbn [snd]; [|left; reflexivity].
  destruct N as [->|(e & -> & _)]; [left; apply app_nil_r | right; eauto].
Qed.

(** Every entry of the object was added by one step of the program, at the
    index it has. *)
Lemma entry_was_added p : forall i e,
  nth_error (snd (Store.run p Store.new_CustomZipCreator)) i = Some e ->
  exists before c later,
    p = before ++ c :: later
    /\ i = length (snd (Store.run before Store.new_CustomZipCreator))
    /\ snd (Store.step c (Store.run before Store.new_CustomZipCreator))
       = snd (Store.run before Store.new_CustomZipCreator) ++ [e].
Proof.
  induction p as [|x p IH] using rev_ind; intros i e H.
  - destruct i; discriminate.
  - rewrite run_app in H. cbn [Store.run fold_left] in H.
    fold (Store.run p Store.new_CustomZipCreator) in H.
    assert (Old : nth_error (snd (Store.run p Store.new_CustomZipCreator)) i = Some e ->
                  exists before c later,
                    p ++ [x] = before ++ c :: later
                    /\ i = length (snd (Store.run before Store.new_CustomZipCreator))
                    /\ snd (Store.step c (Store.run before Store.new_CustomZipCreator))
                       = snd (Store.run before Store.new_CustomZipCreator) ++ [e]).
    { intros H'. destruct (IH i e H') as (b & c & l & -> & Hi & Hs).
      exists b, c, (l ++ [x]). rewrite <- app_assoc. repeat split; assumption. }
    destruct (step_entries x _ (run_well_formed p)) as [E|(e' & E)]; rewrite E in H;
      [exact (Old H)|].
    destruct (Nat.lt_ge_cases i (length (snd (Store.run p Store.new_CustomZipCreator))))
      as [Lt|Ge].
    + rewrite nth_error_app1 in H by exact Lt. exact (Old H).
    + rewrite nth_error_app2 in H by exact Ge.
      destruct (i - length (snd (Store.run p Store.new_CustomZipCreator)))%nat
        as [|k] eqn:D; [|destruct k; discriminate].
      injection H as ->. exists p, x, []. split; [reflexivity|].
      split; [lia | exact E].
Qed.

(** The records [createZip] writes for an entry, from the state it is
    called in: the checksum is the one the entry stores, the sizes and the
    payload are those of the array as it is now. *)
Lemma createZip_entry_fields h es i e now :
  Store.well_formed (h, es) ->
  nth_error es i = Some e ->
  nth_error h (Store.entry_data e) = Some now ->
  exists blob t,
    Store.createZip (h, es) = (Ok blob, (h ++ t, es))
    /\ let buf := blob_bytes blob in
       let vs := entries (Store.object_value (h, es)) in
       let L := local_header_index vs i in
       let C := central_record_index vs i in
       let n := length (TextEncoder_encode (Store.entry_filename e)) in
       read_u32 buf (L + 0) = Some 0x04034b50
       /\ read_u32 buf (C + 0) = Some 0x02014b50
       /\ slice buf (L + (30 + n)) (length now) = now
       /\ read_u32 buf (L + 14) = Some (Store.entry_crc32 e mod 2 ^ 32)
       /\ read_u32 buf (C + 16) = Some (Store.entry_crc32 e mod 2 ^ 32)
       /\ read_u32 buf (L + 18) = Some (len now mod 2 ^ 32)
       /\ read_u32 buf (L + 22) = Some (len now mod 2 ^ 32)
       /\ read_u32 buf (C + 20) = Some (len now mod 2 ^ 32)
       /\ read_u32 buf (C + 24) = Some (len now mod 2 ^ 32).
Proof.
  intros V He Hn. destruct (createZip_run h es V) as (t & E).
  eexists. exists t. split; [exact E|]. cbv zeta.
  unfold Store.object_value. cbn [blob_bytes entries fst snd].
  assert (Hv : nth_error (map (Store.entry_value h) es) i
               = Some {| filename := Store.entry_filename e; data := now;
                         crc32 := Store.entry_crc32 e |}).
  { rewrite nth_error_map, He. cbn [option_map]. unfold Store.entry_value.
    rewrite (nth_error_nth _ _ _ Hn). reflexivity. }
  destruct (local_fields_of_entry _ _ _ Hv) as (l0 & l1 & l2 & l3 & _ & _ & l6).
  destruct (central_fields_of_entry _ _ _ Hv) as (c0 & c1 & c2 & c3 & _).
  cbv zeta in l0, l1, l2, l3, l6, c0, c1, c2, c3.
  unfold name_bytes in l6. cbn [filename data crc32] in l1, l2, l3, l6, c1, c2, c3.
  repeat split; assumption.
Qed.

(** *** The store and the object as a value

    Seen through [Store.object_value], the registration methods on the
    store are the methods on values. *)

Lemma object_value_extend h t es :
  Store.well_formed (h, es) ->
  Store.object_value (h ++ t, es) = Store.object_value (h, es).
Proof.
  intros V. unfold Store.object_value. cbn [fst snd].
  rewrite entry_values_extend by exact V. reflexivity.
Qed.

Lemma object_value_push h t es f r a :
  Store.well_formed (h, es) ->
  nth_error (h ++ t) r = Some a ->
  Store.object_value
    (h ++ t, es ++ [{| Store.entry_filename := f; Store.entry_data := r;
                       Store.entry_crc32 := calculateCRC32 a |}])
  = push (Store.object_value (h, es)) (entry_of f a).
Proof.
  intros V H. unfold Store.object_value, push. cbn [fst snd entries].
  rewrite map_app, entry_values_extend by exact V. cbn [map].
  unfold Store.entry_value at 2.
  cbn [Store.entry_filename Store.entry_data Store.entry_crc32].
  rewrite (nth_error_nth _ _ _ H). reflexivity.
Qed.

Lemma addFile_value f d b h es :
  Store.well_formed (h, es) ->
  addFile f (data_value h d) b (Store.object_value (h, es))
  = (fst (Store.addFile f d b (h, es)),
     Store.object_value (snd (Store.addFile f d b (h, es)))).
Proof.
  intros V. rewrite addFile_run. destruct d as [s|r|]; cbn [data_value].
  - destruct b.
    + rewrite addFile_base64. unfold base64ToUint8Array.
      destruct (atob s) as [bin|err]; cbn [bindR fst snd]; [|reflexivity].
      rewrite (object_value_push h [map byte_of_N bin]) by (exact V || apply nth_error_last).
      reflexivity.
    + rewrite addFile_text. cbn [fst snd].
      rewrite (object_value_push h [TextEncoder_encode s])
        by (exact V || apply nth_error_last).
      reflexivity.
  - destruct (nth_error h r) as [a|] eqn:E; cbn [fst snd]; [|reflexivity].
    rewrite addFile_bytes.
    pose proof (object_value_push h [] es f r a V) as P.
    rewrite app_nil_r in P. rewrite P by exact E. reflexivity.
  - reflexivity.
Qed.

Lemma addImageFromDataURL_value f u h es :
  Store.well_formed (h, es) ->
  addImageFromDataURL f u (Store.object_value (h, es))
  = (fst (Store.addImageFromDataURL f u (h, es)),
     Store.object_value (snd (Store.addImageFromDataURL f u (h, es)))).
Proof.
  intros V. unfold addImageFromDataURL, Store.addImageFromDataURL.
  destruct (nth_error (String_split comma u) 1) as [s|].
  - exact (addFile_value f (Store.DataString s) true h es V).
  - exact (addFile_value f Store.DataUndefined true h es V).
Qed.

(** The objects of a program that writes no array are reachable. *)
Lemma run_reachable p : forall s,
  Store.well_formed s ->
  (forall a, Store.unwritten a p = true) ->
  reachable (Store.object_value s) ->
  reachable (Store.object_value (Store.run p s)).
Proof.
  induction p as [|c p IH]; intros [h es] V U R; [exact R|].
  rewrite run_cons.
  assert (Up : forall a, Store.unwritten a p = true).
  { intros a. specialize (U a). rewrite unwritten_cons in U.
    apply andb_prop in U. apply U. }
  apply IH; [apply (step_keeps c h es V) | exact Up |].
  destruct c as [f d b|f u| |bytes|a i v]; cbn [Store.step].
  - pose proof (addFile_value f d b h es V) as E.
    destruct (Store.addFile f d b (h, es)) as [[[]|err] s'] eqn:S; cbn [fst snd] in *.
    + exact (reach_addFile _ _ _ _ _ R E).
    + destruct (addFile_outcome f (data_value h d) b (Store.object_value (h, es)))
        as [(x & O)|(err' & O)]; rewrite O in E; [discriminate|].
      apply (f_equal snd) in E. cbn [snd] in E. rewrite <- E. exact R.
  - pose proof (addImageFromDataURL_value f u h es V) as E.
    destruct (Store.addImageFromDataURL f u (h, es)) as [[[]|err] s'] eqn:S;
      cbn [fst snd] in *.
    + exact (reach_addImageFromDataURL _ _ _ _ R E).
    + destruct (addImageFromDataURL_outcome f u (Store.object_value (h, es)))
        as [(x & O)|(err' & O)]; rewrite O in E; [discriminate|].
      apply (f_equal snd) in E. cbn [snd] in E. rewrite <- E. exact R.
  - destruct (createZip_run h es V) as (t & E). rewrite E. cbn [snd].
    rewrite object_value_extend by exact V. exact R.
  - unfold Store.new_array. cbn [fst snd].
    rewrite object_value_extend by exact V. exact R.
  - specialize (U a). rewrite unwritten_cons in U. cbn [Store.writes] in U.
    rewrite Nat.eqb_refl in U. discriminate.
Qed.

Lemma program_without_writes_reachable p :
  (forall a, Store.unwritten a p = true) ->
  reachable (Store.object_value (Store.run p Store.new_CustomZipCreator)).
Proof.
  intros U. apply run_reachable; [apply new_well_formed | exact U | apply reach_new].
Qed.

End ProgramFacts.

(** C3 (amended).  Take any program and any entry one of its steps adds
    (every entry of the object is one, [ProgramFacts.entry_was_added]).
    If no later step writes the array of that entry, then [createZip]
    called at the end succeeds, the payload it writes for the entry is what
    the array holds, and the CRC-32 fields of the entry's local header and
    central directory record both hold the checksum recomputed over that
    payload; if moreover the payload is shorter than 2^32 bytes, the
    compressed-size and uncompressed-size fields of both records hold its
    length. *)
Theorem entry_checksum_and_sizes before c later e :
  let s0 := Store.run before Store.new_CustomZipCreator in
  let s1 := Store.step c s0 in
  let s2 := Store.run later s1 in
  snd s1 = snd s0 ++ [e] ->
  Store.unwritten (Store.entry_data e) later = true ->
  exists payload blob s3,
    nth_error (fst s2) (Store.entry_data e) = Some payload
    /\ Store.createZip s2 = (Ok blob, s3)
    /\ let buf := blob_bytes blob in
       let vs := entries (Store.object_value s2) in
       let i := length (snd s0) in
       let L := local_header_index vs i in
       let C := central_record_index vs i in
       let n := length (TextEncoder_encode (Store.entry_filename e)) in
       read_u32 buf (L + 0) = Some 0x04034b50
       /\ read_u32 buf (C + 0) = Some 0x02014b50
       /\ slice buf (L + (30 + n)) (length payload) = payload
       /\ read_u32 buf (L + 14) = Some (calculateCRC32 payload)
       /\ read_u32 buf (C + 16) = Some (calculateCRC32 payload)
       /\ (len payload < 2 ^ 32 ->
           read_u32 buf (L + 18) = Some (len payload)
           /\ read_u32 buf (L + 22) = Some (len payload)
           /\ read_u32 buf (C + 20) = Some (len payload)
           /\ read_u32 buf (C + 24) = Some (len payload)).
Proof.
  intros s0 s1 s2 H U.
  destruct (ProgramFacts.entry_kept before c later e H)
    as (V & Hi & b & _ & Hc & _ & K).
  fold s0 s1 s2 in V, Hi, K. specialize (K U).
  destruct s2 as [h es]. cbn [fst snd] in Hi, K.
  destruct (ProgramFacts.createZip_entry_fields h es _ e b V Hi K)
    as (blob & t & E & l0 & c0 & P & l1 & c1 & l2 & l3 & c2 & c3).
  exists b, blob, (h ++ t, es). split; [exact K|]. split; [exact E|].
  cbv zeta.
  pose proof (calculateCRC32_range b) as Hr.
  pose proof (len_nonneg b) as Hp.
  rewrite Hc, Z.mod_small in l1, c1 by lia.
  repeat split; try assumption;
    match goal with
    | F : read_u32 _ ?p = Some (_ mod _) |- read_u32 _ ?p = _ =>
      rewrite F, Z.mod_small by lia; reflexivity
    end.
Qed.

Lemma entry_checksum_and_sizes_witness :
  let s2 :=
    Store.run Store.two_files_later
      (Store.step (Store.AddFile (str "b.txt") (Store.DataString (str "hi")) false)
         (Store.run Store.two_files_before Store.new_CustomZipCreator)) in
  exists blob s3,
    Store.createZip s2 = (Ok blob, s3)
    /\ read_u32 (blob_bytes blob)
         (local_header_index (entries (Store.object_value s2)) 1 + 14)
       = Some (calculateCRC32 (TextEncoder_encode (str "hi")))
    /\ read_u32 (blob_bytes blob)
         (local_header_index (entries (Store.object_value s2)) 1 + 18)
       = Some 2.
Proof.
  destruct (entry_checksum_and_sizes Store.two_files_before
              (Store.AddFile (str "b.txt") (Store.DataString (str "hi")) false)
              Store.two_files_later
              {| Store.entry_filename := str "b.txt"; Store.entry_data := 1%nat;
                 Store.entry_crc32 := calculateCRC32 (TextEncoder_encode (str "hi")) |})
    as (payload & blob & s3 & Hp & E & _ & _ & _ & F1 & _ & F2).
  - vm_compute. reflexivity.
  - reflexivity.
  - vm_compute in Hp. injection Hp as <-.
    exists blob, s3. split; [exact E|]. split; [exact F1|].
    apply F2. vm_compute. reflexivity.
Defined.

(** * Further properties of the checksum *)

Section ChecksumAlgebra.
Import JS JSFacts.

Lemma Z_of_byte_inj b b' : Z_of_byte b = Z_of_byte b' -> b = b'.
Proof.
  unfold Z_of_byte. intros H. apply N2Z.inj in H.
  apply (f_equal Byte.of_N) in H. rewrite !Byte.of_to_N in H.
  injection H as H. exact H.
Qed.

Lemma lxor_cancel_l p a b : Z.lxor p a = Z.lxor p b -> a = b.
Proof.
  intros H. apply (f_equal (Z.lxor p)) in H.
  rewrite <- !Z.lxor_assoc, Z.lxor_nilpotent, !Z.lxor_0_l in H. exact H.
Qed.

Lemma lxor_cancel_r p a b : Z.lxor a p = Z.lxor b p -> a = b.
Proof. rewrite !(Z.lxor_comm _ p). apply lxor_cancel_l. Qed.

Lemma lxor_range a b :
  0 <= a < 2 ^ 32 -> 0 <= b < 2 ^ 32 -> 0 <= Z.lxor a b < 2 ^ 32.
Proof.
  intros Ha Hb.
  rewrite <- (ToUint32_small a), <- (ToUint32_small b), <- ToUint32_lxor
    by assumption.
  apply ToUint32_range.
Qed.

Lemma testbit_32_range x i : 0 <= x < 2 ^ 32 -> 32 <= i -> Z.testbit x i = false.
Proof.
  intros Hx Hi. rewrite <- (ToUint32_small x Hx), testbit_ToUint32.
  replace (i <? 32) with false by (symmetry; apply Z.ltb_ge; lia).
  reflexivity.
Qed.

Lemma bit_step_range x : 0 <= x < 2 ^ 32 -> 0 <= Reference.bit_step x < 2 ^ 32.
Proof.
  intros Hx. unfold Reference.bit_step.
  pose proof (shiftr_range x 1 ltac:(lia) Hx) as Hs.
  destruct (Z.testbit x 0); [|exact Hs].
  apply lxor_range; [unfold Reference.poly; lia | exact Hs].
Qed.

(** The top bit of the next register tells the low bit of this one. *)
Lemma bit_step_top x :
  0 <= x < 2 ^ 32 -> Z.testbit (Reference.bit_step x) 31 = Z.testbit x 0.
Proof.
  intros Hx. unfold Reference.bit_step.
  assert (Hs : Z.testbit (Z.shiftr x 1) 31 = false)
    by (rewrite Z.shiftr_spec by lia; apply testbit_32_range; [exact Hx | lia]).
  destruct (Z.testbit x 0).
  - rewrite Z.lxor_spec, Hs. reflexivity.
  - exact Hs.
Qed.

Lemma bit_step_inj x y :
  0 <= x < 2 ^ 32 -> 0 <= y < 2 ^ 32 ->
  Reference.bit_step x = Reference.bit_step y -> x = y.
Proof.
  intros Hx Hy H.
  assert (H0 : Z.testbit x 0 = Z.testbit y 0)
    by (rewrite <- !bit_step_top by assumption; rewrite H; reflexivity).
  assert (Hs : Z.shiftr x 1 = Z.shiftr y 1).
  { unfold Reference.bit_step in H. rewrite <- H0 in H.
    destruct (Z.testbit x 0); [apply lxor_cancel_l in H|]; exact H. }
  apply Z.bits_inj'. intros i Hi.
  destruct (Z.eq_dec i 0) as [->|Hn]; [exact H0|].
  replace i with (i - 1 + 1) by lia.
  rewrite <- !(Z.shiftr_spec _ 1 (i - 1)) by lia. rewrite Hs. reflexivity.
Qed.

Lemma iter_bit_step_range n x :
  0 <= x < 2 ^ 32 -> 0 <= Nat.iter n Reference.bit_step x < 2 ^ 32.
Proof.
  intros Hx. induction n as [|n IH]; cbn [Nat.iter]; [exact Hx|].
  apply bit_step_range. exact IH.
Qed.

Lemma iter_bit_step_inj n x y :
  0 <= x < 2 ^ 32 -> 0 <= y < 2 ^ 32 ->
  Nat.iter n Reference.bit_step x = Nat.iter n Reference.bit_step y -> x = y.
Proof.
  intros Hx Hy. induction n as [|n IH]; cbn [Nat.iter]; intros H; [exact H|].
  apply IH. apply bit_step_inj; [apply iter_bit_step_range .. | exact H]; assumption.
Qed.

Lemma byte_in_range b : 0 <= Z_of_byte b < 2 ^ 32.
Proof. pose proof (Z_of_byte_range b). lia. Qed.

Lemma byte_step_range r b :
  0 <= r < 2 ^ 32 -> 0 <= Reference.byte_step r b < 2 ^ 32.
Proof.
  intros Hr. unfold Reference.byte_step.
  apply iter_bit_step_range, lxor_range; [exact Hr | apply byte_in_range].
Qed.

Lemma fold_byte_step_range data : forall r,
  0 <= r < 2 ^ 32 -> 0 <= fold_left Reference.byte_step data r < 2 ^ 32.
Proof.
  induction data as [|b data IH]; intros r Hr; cbn [fold_left]; [exact Hr|].
  apply IH, byte_step_range, Hr.
Qed.

(** Processing the same bytes from two different registers gives two
    different registers. *)
Lemma fold_byte_step_inj data : forall r r',
  0 <= r < 2 ^ 32 -> 0 <= r' < 2 ^ 32 ->
  fold_left Reference.byte_step data r = fold_left Reference.byte_step data r' ->
  r = r'.
Proof.
  induction data as [|b data IH]; intros r r' Hr Hr' H; cbn [fold_left] in H;
    [exact H|].
  apply IH in H; [|apply byte_step_range; assumption ..].
  unfold Reference.byte_step in H.
  apply iter_bit_step_inj in H;
    [|apply lxor_range; [assumption | apply byte_in_range] ..].
  apply lxor_cancel_r in H. exact H.
Qed.

(** X1.  Changing one byte of the data, whatever stands before and after
    it, changes the checksum. *)
Theorem calculateCRC32_detects_changed_byte (before after : list byte) b b' :
  b <> b' ->
  calculateCRC32 (before ++ b :: after) <> calculateCRC32 (before ++ b' :: after).
Proof.
  intros Hb H. apply Hb.
  rewrite !calculateCRC32_refines in H. unfold Reference.crc32 in H.
  apply lxor_cancel_r in H.
  rewrite !fold_left_app in H. cbn [fold_left] in H.
  set (r := fold_left Reference.byte_step before 0xFFFFFFFF) in H.
  assert (Hr : 0 <= r < 2 ^ 32) by (apply fold_byte_step_range; lia).
  apply fold_byte_step_inj in H; [|apply byte_step_range; exact Hr ..].
  unfold Reference.byte_step in H.
  apply iter_bit_step_inj in H;
    [|apply lxor_range; [exact Hr | apply byte_in_range] ..].
  apply lxor_cancel_l in H. apply Z_of_byte_inj. exact H.
Qed.

Lemma calculateCRC32_detects_changed_byte_witness :
  calculateCRC32 (ascii_bytes "page_1.png") <> calculateCRC32 (ascii_bytes "page_2.png").
Proof.
  exact (calculateCRC32_detects_changed_byte
           (ascii_bytes "page_") (ascii_bytes ".png") "1"%byte "2"%byte
           ltac:(discriminate)).
Defined.

Lemma low_byte_and_rest v n :
  0 <= n ->
  Z.lxor (v mod 256) (Z.shiftl ((v / 256) mod 2 ^ n) 8) = v mod 2 ^ (n + 8).
Proof.
  intros Hn. change 256 with (2 ^ 8).
  rewrite <- Z.shiftr_div_pow2 by lia.
  apply Z.bits_inj'. intros i Hi.
  rewrite Z.lxor_spec, !Z.testbit_mod_pow2 by lia.
  destruct (Z.ltb_spec i 8) as [L|G].
  - rewrite Z.shiftl_spec_low by lia. rewrite xorb_false_r. cbn [andb].
    replace (i <? n + 8) with true by (symmetry; apply Z.ltb_lt; lia).
    reflexivity.
  - rewrite Z.shiftl_spec, Z.testbit_mod_pow2, Z.shiftr_spec by lia.
    cbn [andb xorb]. replace (i - 8 + 8) with i by lia.
    destruct (Z.ltb_spec (i - 8) n), (Z.ltb_spec i (n + 8)); try lia; reflexivity.
Qed.

(** The bytes of a number, least significant first, act on the register
    like the number itself, xor-ed in at once. *)
Lemma fold_byte_step_le_bytes n : forall v r,
  fold_left Reference.byte_step (le_bytes n v) r
  = Nat.iter (8 * n) Reference.bit_step (Z.lxor r (v mod 2 ^ (8 * Z.of_nat n))).
Proof.
  induction n as [|n IH]; intros v r.
  - cbn [le_bytes fold_left Nat.mul Nat.iter]. change (8 * Z.of_nat 0) with 0.
    rewrite Z.pow_0_r, Z.mod_1_r, Z.lxor_0_r. reflexivity.
  - cbn [le_bytes fold_left]. rewrite IH. unfold Reference.byte_step.
    rewrite Z_of_byte_of_Z.
    rewrite <- (iter_bit_step_lxor 8). change (Z.of_nat 8) with 8.
    rewrite <- Nat.iter_add.
    replace (8 * n + 8)%nat with (8 * S n)%nat by lia.
    rewrite Z.lxor_assoc, low_byte_and_rest by lia.
    replace (8 * Z.of_nat n + 8) with (8 * Z.of_nat (S n)) by lia.
    reflexivity.
Qed.

(** X2.  The residue: the checksum of any data followed by the four bytes
    of its own checksum, least significant first (as the headers store
    it), is the constant [0x2144DF1C]. *)
Theorem calculateCRC32_residue data :
  calculateCRC32 (data ++ le_bytes 4 (calculateCRC32 data)) = 0x2144DF1C.
Proof.
  pose proof (calculateCRC32_range data) as Hc.
  rewrite (calculateCRC32_refines (data ++ _)). unfold Reference.crc32.
  rewrite fold_left_app, fold_byte_step_le_bytes.
  change (8 * Z.of_nat 4) with 32. rewrite Z.mod_small by exact Hc.
  rewrite calculateCRC32_refines. unfold Reference.crc32.
  rewrite <- (Z.lxor_assoc (fold_left _ _ _)).
  rewrite Z.lxor_nilpotent, Z.lxor_0_l. vm_compute. reflexivity.
Qed.

End ChecksumAlgebra.

(** * Further properties of the archive *)

(** ** The whole buffer *)

Lemma length_archive es :
  length (archive es)
  = (sum_sizes local_record_size es + sum_sizes central_record_size es + 22)%nat.
Proof.
  unfold archive.
  rewrite !length_app, length_local_section, length_central_section.
  change (length (end_record _ _ _)) with 22%nat. lia.
Qed.

Lemma firstn_all_entries (es : list ZipEntry) : firstn (length es) es = es.
Proof. apply firstn_all. Qed.

(** X3.  [createZip] never throws, whatever the entries: no write of a
    header field or of a part falls outside its array.  The blob has type
    "application/zip", and its length is 30 bytes plus name plus payload
    for every entry, 46 bytes plus name for every entry, and 22 bytes. *)
Theorem createZip_succeeds_with_length this :
  exists buf,
    createZip this
    = (Ok {| blob_bytes := buf; blob_type := "application/zip" |}, this)
    /\ length buf
       = (list_sum (map (fun e => 30 + length (TextEncoder_encode (filename e))
                                  + length (data e)) (entries this))
          + list_sum (map (fun e => 46 + length (TextEncoder_encode (filename e)))
                        (entries this))
          + 22)%nat.
Proof.
  eexists. split; [apply createZip_closed|]. apply length_archive.
Qed.

(** ** The end record *)

Section EndRecord.
Variables (n s o : Z).

Lemma end_disk_number : read_u16 (end_record n s o) 4 = Some 0.
Proof. exact (read_u16_field 0 _). Qed.

Lemma end_disk_of_directory : read_u16 (end_record n s o) 6 = Some 0.
Proof. exact (read_u16_field 0 _). Qed.

Lemma end_comment_length : read_u16 (end_record n s o) 20 = Some 0.
Proof. exact (read_u16_field 0 _). Qed.

End EndRecord.

Lemma archive_at_end es :
  skipn (central_record_index es (length es)) (archive es)
  = end_record (Z.of_nat (length es))
      (Z.of_nat (sum_sizes central_record_size es))
      (Z.of_nat (sum_sizes local_record_size es)).
Proof.
  unfold central_record_index. rewrite firstn_all_entries.
  rewrite <- (length_local_section es), <- (length_central_section es 0).
  unfold archive. rewrite app_assoc, <- length_app.
  rewrite <- (Nat.add_0_r (length (_ ++ _))), skipn_past. reflexivity.
Qed.

(** X4.  The buffer ends with the end-of-central-directory record: its 22
    bytes are the last ones; both disk numbers and the comment length are
    0; both entry counts hold the number of entries modulo 2^16; the size
    field holds the length of the central directory and the offset field
    the index at which the central directory begins, both modulo 2^32, so
    all of them are exact for fewer than 65536 entries and a buffer shorter
    than 2^32 bytes. *)
Theorem end_record_fields this :
  let es := entries this in
  let first_central := central_record_index es 0 in
  let E := central_record_index es (length es) in
  exists buf,
    createZip this
    = (Ok {| blob_bytes := buf; blob_type := "application/zip" |}, this)
    /\ length buf = (E + 22)%nat
    /\ (E - first_central)%nat = sum_sizes central_record_size es
    /\ read_u32 buf (E + 0) = Some 0x06054b50
    /\ read_u16 buf (E + 4) = Some 0
    /\ read_u16 buf (E + 6) = Some 0
    /\ read_u16 buf (E + 8) = Some (Z.of_nat (length es) mod 2 ^ 16)
    /\ read_u16 buf (E + 10) = Some (Z.of_nat (length es) mod 2 ^ 16)
    /\ read_u32 buf (E + 12) = Some (Z.of_nat (E - first_central) mod 2 ^ 32)
    /\ read_u32 buf (E + 16) = Some (Z.of_nat first_central mod 2 ^ 32)
    /\ read_u16 buf (E + 20) = Some 0
    /\ (Z.of_nat E + 22 < 2 ^ 32 -> Z.of_nat (length es) < 2 ^ 16 ->
        read_u16 buf (E + 8) = Some (Z.of_nat (length es))
        /\ read_u16 buf (E + 10) = Some (Z.of_nat (length es))
        /\ read_u32 buf (E + 12) = Some (Z.of_nat (E - first_central))
        /\ read_u32 buf (E + 16) = Some (Z.of_nat first_central)).
Proof.
  intros es first_central E.
  assert (HF : first_central = sum_sizes local_record_size es).
  { unfold first_central, central_record_index. cbn [firstn].
    unfold sum_sizes at 2. cbn [map list_sum fold_right]. lia. }
  assert (HE : E = (sum_sizes local_record_size es
                    + sum_sizes central_record_size es)%nat).
  { unfold E, central_record_index. rewrite firstn_all_entries. reflexivity. }
  assert (HD : (E - first_central)%nat = sum_sizes central_record_size es) by lia.
  exists (archive es). split; [apply createZip_closed|].
  assert (HL : length (archive es) = (E + 22)%nat)
    by (rewrite length_archive; lia).
  split; [exact HL|]. split; [exact HD|].
  pose proof (archive_at_end es) as S. fold E in S.
  rewrite !read_u32_skipn, !read_u16_skipn, S.
  rewrite end_disk_number, end_disk_of_directory, end_comment_length.
  rewrite <- (app_nil_r (end_record _ _ _)).
  rewrite end_signature, end_entries_on_disk, end_entries_total,
    end_directory_size, end_directory_offset, !mod_mod_32, !mod_mod_16.
  rewrite HD, HF.
  repeat (split; [reflexivity|]).
  intros Hb Hn.
  rewrite !Z.mod_small by lia. repeat split.
Qed.

Lemma end_record_fields_witness :
  exists buf,
    createZip two_files
    = (Ok {| blob_bytes := buf; blob_type := "application/zip" |}, two_files)
    /\ read_u16 buf (central_record_index (entries two_files) 2 + 8) = Some 2
    /\ read_u32 buf (central_record_index (entries two_files) 2 + 16) = Some 74.
Proof.
  destruct (end_record_fields two_files)
    as (buf & E & _ & _ & _ & _ & _ & _ & _ & _ & _ & _ & X).
  exists buf. split; [exact E|].
  destruct X as (X8 & _ & _ & X16);
    [vm_compute; reflexivity | vm_compute; reflexivity |].
  split; [exact X8 | exact X16].
Defined.

(** ** The constant fields *)

Section LocalConstants.
Variables (s c n : Z) (rest : list byte).
Let hdr := local_header_fields s c n ++ rest.

Lemma local_version_needed : read_u16 hdr 4 = Some 20.
Proof. exact (read_u16_field 20 _). Qed.

Lemma local_flags : read_u16 hdr 6 = Some 0.
Proof. exact (read_u16_field 0 _). Qed.

Lemma local_method : read_u16 hdr 8 = Some 0.
Proof. exact (read_u16_field 0 _). Qed.

Lemma local_time : read_u16 hdr 10 = Some 0.
Proof. exact (read_u16_field 0 _). Qed.

Lemma local_date : read_u16 hdr 12 = Some 0.
Proof. exact (read_u16_field 0 _). Qed.

Lemma local_extra_length : read_u16 hdr 28 = Some 0.
Proof. exact (read_u16_field 0 _). Qed.

End LocalConstants.

Section CentralConstants.
Variables (s c n o : Z) (rest : list byte).
Let rec := central_record_fields s c n o ++ rest.

Lemma central_version_made_by : read_u16 rec 4 = Some 20.
Proof. exact (read_u16_field 20 _). Qed.

Lemma central_version_needed : read_u16 rec 6 = Some 20.
Proof. exact (read_u16_field 20 _). Qed.

Lemma central_flags : read_u16 rec 8 = Some 0.
Proof. exact (read_u16_field 0 _). Qed.

Lemma central_method : read_u16 rec 10 = Some 0.
Proof. exact (read_u16_field 0 _). Qed.

Lemma central_time : read_u16 rec 12 = Some 0.
Proof. exact (read_u16_field 0 _). Qed.

Lemma central_date : read_u16 rec 14 = Some 0.
Proof. exact (read_u16_field 0 _). Qed.

Lemma central_extra_length : read_u16 rec 30 = Some 0.
Proof. exact (read_u16_field 0 _). Qed.

Lemma central_comment_length : read_u16 rec 32 = Some 0.
Proof. exact (read_u16_field 0 _). Qed.

Lemma central_disk_start : read_u16 rec 34 = Some 0.
Proof. exact (read_u16_field 0 _). Qed.

Lemma central_internal_attributes : read_u16 rec 36 = Some 0.
Proof. exact (read_u16_field 0 _). Qed.

Lemma central_external_attributes : read_u32 rec 38 = Some 0.
Proof. exact (read_u32_field 0 _). Qed.

End CentralConstants.

(** X5.  Every entry is stored, never compressed, and carries no time
    stamp: in its local header and in its central directory record the
    version fields are 20, the flags, the compression method, the time and
    the date are 0, and the extra-field length is 0; the central record
    also has comment length, disk number and both attribute fields 0.  This
    holds for every object, whatever the sizes. *)
Theorem constant_fields this i e :
  nth_error (entries this) i = Some e ->
  exists buf,
    createZip this
    = (Ok {| blob_bytes := buf; blob_type := "application/zip" |}, this)
    /\ (let L := local_header_index (entries this) i in
        read_u16 buf (L + 4) = Some 20
        /\ read_u16 buf (L + 6) = Some 0
        /\ read_u16 buf (L + 8) = Some 0
        /\ read_u16 buf (L + 10) = Some 0
        /\ read_u16 buf (L + 12) = Some 0
        /\ read_u16 buf (L + 28) = Some 0)
    /\ (let C := central_record_index (entries this) i in
        read_u16 buf (C + 4) = Some 20
        /\ read_u16 buf (C + 6) = Some 20
        /\ read_u16 buf (C + 8) = Some 0
        /\ read_u16 buf (C + 10) = Some 0
        /\ read_u16 buf (C + 12) = Some 0
        /\ read_u16 buf (C + 14) = Some 0
        /\ read_u16 buf (C + 30) = Some 0
        /\ read_u16 buf (C + 32) = Some 0
        /\ read_u16 buf (C + 34) = Some 0
        /\ read_u16 buf (C + 36) = Some 0
        /\ read_u32 buf (C + 38) = Some 0).
Proof.
  intros H. exists (archive (entries this)). split; [apply createZip_closed|].
  destruct (archive_at_local _ _ _ H) as (r1 & S1).
  destruct (archive_at_central _ _ _ H) as (r2 & S2).
  split; cbv zeta.
  - rewrite !read_u16_skipn, S1. unfold local_header. rewrite <- !app_assoc.
    rewrite local_version_needed, local_flags, local_method, local_time,
      local_date, local_extra_length.
    repeat split.
  - rewrite !read_u16_skipn, read_u32_skipn, S2.
    unfold central_record. rewrite <- !app_assoc.
    rewrite central_version_made_by, central_version_needed, central_flags,
      central_method, central_time, central_date, central_extra_length,
      central_comment_length, central_disk_start, central_internal_attributes,
      central_external_attributes.
    repeat split.
Qed.

Lemma constant_fields_witness :
  exists buf,
    createZip two_files
    = (Ok {| blob_bytes := buf; blob_type := "application/zip" |}, two_files)
    /\ read_u16 buf (local_header_index (entries two_files) 1 + 8) = Some 0.
Proof.
  destruct (constant_fields two_files 1
              (entry_of (str "b.txt") (TextEncoder_encode (str "hi"))) eq_refl)
    as (buf & E & (_ & _ & M & _) & _).
  exists buf. split; [exact E | exact M].
Defined.

(** ** The variable fields *)

(** X6.  What the fields of an entry hold in every archive, also beyond
    the sizes the fields can count: the checksum fields of both records
    hold the stored checksum and the four size fields the payload length,
    modulo 2^32; both name-length fields hold the length of the encoded
    name modulo 2^16; the offset field holds the index of the local header
    modulo 2^32.  The encoded name follows the fixed part of each record in
    full, and the payload follows the local header byte for byte. *)
Theorem variable_fields this i e :
  nth_error (entries this) i = Some e ->
  exists buf,
    createZip this
    = (Ok {| blob_bytes := buf; blob_type := "application/zip" |}, this)
    /\ let L := local_header_index (entries this) i in
       let C := central_record_index (entries this) i in
       let name := TextEncoder_encode (filename e) in
       read_u32 buf (L + 14) = Some (crc32 e mod 2 ^ 32)
       /\ read_u32 buf (C + 16) = Some (crc32 e mod 2 ^ 32)
       /\ read_u32 buf (L + 18) = Some (len (data e) mod 2 ^ 32)
       /\ read_u32 buf (L + 22) = Some (len (data e) mod 2 ^ 32)
       /\ read_u32 buf (C + 20) = Some (len (data e) mod 2 ^ 32)
       /\ read_u32 buf (C + 24) = Some (len (data e) mod 2 ^ 32)
       /\ read_u16 buf (L + 26) = Some (len name mod 2 ^ 16)
       /\ read_u16 buf (C + 28) = Some (len name mod 2 ^ 16)
       /\ read_u32 buf (C + 42) = Some (Z.of_nat L mod 2 ^ 32)
       /\ slice buf (L + 30) (length name) = name
       /\ slice buf (C + 46) (length name) = name
       /\ slice buf (L + (30 + length name)) (length (data e)) = data e.
Proof.
  intros H. exists (archive (entries this)). split; [apply createZip_closed|].
  destruct (local_fields_of_entry _ _ _ H) as (_ & l1 & l2 & l3 & l4 & l5 & l6).
  destruct (central_fields_of_entry _ _ _ H) as (_ & c1 & c2 & c3 & c4 & c5 & c6).
  cbv zeta in *. unfold name_bytes in *.
  repeat split; assumption.
Qed.

Lemma variable_fields_witness :
  exists buf,
    createZip two_files
    = (Ok {| blob_bytes := buf; blob_type := "application/zip" |}, two_files)
    /\ read_u16 buf (local_header_index (entries two_files) 1 + 26) = Some 5
    /\ slice buf (local_header_index (entries two_files) 1 + 30) 5
       = ascii_bytes "b.txt".
Proof.
  destruct (variable_fields two_files 1
              (entry_of (str "b.txt") (TextEncoder_encode (str "hi"))) eq_refl)
    as (buf & E & _ & _ & _ & _ & _ & _ & N & _ & _ & S & _).
  exists buf. split; [exact E|]. split; [exact N | exact S].
Defined.

(** * Further properties of the registration *)

(** X7.  An entry, once added, stays at its place with its name, its
    array and its checksum, whatever the program does afterwards.  The
    checksum it stores is an unsigned 32-bit number (the final [>>> 0]
    undoes the sign that [^] gives the register) and is the checksum of the
    bytes the array held when the entry was added.  The array keeps its
    length, and it holds those same bytes for as long as no step writes
    it. *)
Theorem stored_checksum_of_added_bytes before c later e :
  let s0 := Store.run before Store.new_CustomZipCreator in
  let s1 := Store.step c s0 in
  let s2 := Store.run later s1 in
  snd s1 = snd s0 ++ [e] ->
  nth_error (snd s2) (length (snd s0)) = Some e
  /\ 0 <= Store.entry_crc32 e < 2 ^ 32
  /\ exists added,
       nth_error (fst s1) (Store.entry_data e) = Some added
       /\ Store.entry_crc32 e = calculateCRC32 added
       /\ (exists now, nth_error (fst s2) (Store.entry_data e) = Some now
                       /\ length now = length added)
       /\ (Store.unwritten (Store.entry_data e) later = true ->
           nth_error (fst s2) (Store.entry_data e) = Some added).
Proof.
  intros s0 s1 s2 H.
  destruct (ProgramFacts.entry_kept before c later e H)
    as (_ & Hi & b & Hb & Hc & L & K).
  split; [exact Hi|]. split; [rewrite Hc; apply calculateCRC32_range|].
  exists b. repeat split; assumption.
Qed.

Lemma stored_checksum_of_added_bytes_witness :
  let s2 :=
    Store.run
      (Store.AddFile (str "b.txt") (Store.DataString (str "hi")) false
       :: Store.two_files_later)
      (Store.run Store.two_files_before Store.new_CustomZipCreator) in
  nth_error (snd s2) 0
  = Some {| Store.entry_filename := str "a.png"; Store.entry_data := 0%nat;
            Store.entry_crc32 := calculateCRC32 [x89; x50] |}
  /\ nth_error (fst s2) 0 = Some [x89; x51].
Proof.
  destruct (stored_checksum_of_added_bytes
              [Store.NewArray [x89; x50]]
              (Store.AddFile (str "a.png") (Store.DataBytes 0%nat) false)
              (Store.AddFile (str "b.txt") (Store.DataString (str "hi")) false
               :: Store.two_files_later)
              {| Store.entry_filename := str "a.png"; Store.entry_data := 0%nat;
                 Store.entry_crc32 := calculateCRC32 [x89; x50] |})
    as (Hi & _).
  - vm_compute. reflexivity.
  - split; [exact Hi | vm_compute; reflexivity].
Defined.

(** X8.  [addImageFromDataURL] either appends exactly one entry, under the
    given name and with the checksum of its payload, behind the entries
    that were there, or throws and leaves the object as it was. *)
Theorem addImageFromDataURL_appends_or_keeps name dataURL this :
  match addImageFromDataURL name dataURL this with
  | (Ok _, this') =>
    exists payload,
      entries this'
      = entries this
        ++ [{| filename := name; data := payload;
               crc32 := calculateCRC32 payload |}]
  | (Throw _, this') => this' = this
  end.
Proof.
  destruct (addImageFromDataURL_outcome name dataURL this) as [(a & E)|(err & E)];
    rewrite E; [exists a|]; reflexivity.
Qed.

(** X9.  A string without a comma, be it valid base64, is not decoded:
    [split(",")[1]] is [undefined], [addImageFromDataURL] throws a
    [TypeError] and adds nothing. *)
Theorem addImageFromDataURL_needs_comma name dataURL this :
  ~ In comma dataURL ->
  addImageFromDataURL name dataURL this = (Throw TypeError, this).
Proof.
  intros H. unfold addImageFromDataURL.
  rewrite String_split_no_sep by exact H. reflexivity.
Qed.

Lemma addImageFromDataURL_needs_comma_witness :
  atob (str "iVBORw==") = Ok [137; 80; 78; 71]%N
  /\ addImageFromDataURL (str "page_1.png") (str "iVBORw==") new_CustomZipCreator
     = (Throw TypeError, new_CustomZipCreator).
Proof.
  split; [vm_compute; reflexivity|].
  apply (addImageFromDataURL_needs_comma (str "page_1.png") (str "iVBORw==")).
  vm_compute. intuition discriminate.
Defined.

(** X10.  What [addImageFromDataURL] decodes is the text between the first
    comma and the next comma, or the end of the string when there is no
    other comma; what stands before the first comma and from the second
    comma on has no effect. *)
Theorem addImageFromDataURL_decodes_second_segment name pre seg more this :
  ~ In comma pre ->
  ~ In comma seg ->
  addImageFromDataURL name (pre ++ comma :: seg) this
  = addFile name (DataString seg) true this
  /\ addImageFromDataURL name (pre ++ comma :: seg ++ comma :: more) this
     = addFile name (DataString seg) true this.
Proof.
  intros Hp Hs. unfold addImageFromDataURL. split.
  - rewrite String_split_first, String_split_no_sep by assumption. reflexivity.
  - rewrite !String_split_first by assumption. reflexivity.
Qed.

Lemma addImageFromDataURL_decodes_second_segment_witness :
  addImageFromDataURL (str "p") (str "data:image/png;base64,iVBORw==,rest")
    new_CustomZipCreator
  = addFile (str "p") (DataString (str "iVBORw==")) true new_CustomZipCreator.
Proof.
  exact (proj2 (addImageFromDataURL_decodes_second_segment
                  (str "p") (str "data:image/png;base64") (str "iVBORw==")
                  (str "rest") new_CustomZipCreator
                  ltac:(vm_compute; intuition discriminate)
                  ltac:(vm_compute; intuition discriminate))).
Defined.

(** ** Decoded bytes *)

Lemma base64_value_range c v : base64_value c = Some v -> 0 <= v < 64.
Proof.
  unfold base64_value. intros H.
  repeat match type of H with
         | (if ?b then _ else _) = _ => destruct b eqn:?
         end;
    try discriminate; injection H as <-;
    repeat match goal with
           | E : (_ && _)%bool = true |- _ => apply andb_true_iff in E; destruct E
           | E : (_ <=? _)%N = true |- _ => apply N.leb_le in E
           end; lia.
Qed.

Lemma base64_values_range s : forall vs,
  base64_values s = Some vs -> Forall (fun v => 0 <= v < 64) vs.
Proof.
  induction s as [|c s IH]; intros vs H; cbn [base64_values] in H.
  - injection H as <-. constructor.
  - destruct (base64_value c) as [v|] eqn:Ev; [|discriminate].
    destruct (base64_values s) as [vs'|] eqn:Es; [|discriminate].
    injection H as <-. constructor; [exact (base64_value_range c v Ev)|].
    apply IH. reflexivity.
Qed.

Lemma to_N_small z : 0 <= z < 256 -> (Z.to_N z < 256)%N.
Proof. lia. Qed.

(** Every code unit of a decoded string is below 256. *)
Lemma decode_sextets_bytes n : forall vs,
  (length vs <= n)%nat ->
  Forall (fun v => 0 <= v < 64) vs ->
  Forall (fun c => (c < 256)%N) (decode_sextets vs).
Proof.
  induction n as [|n IH]; intros vs L F.
  - destruct vs; [constructor | cbn [length] in L; lia].
  - destruct vs as [|a [|b [|c [|d rest]]]]; cbn [decode_sextets];
      try constructor.
    + inversion F as [|? ? Ha F1]; subst. inversion F1 as [|? ? Hb F2]; subst.
      apply to_N_small. split; [apply Z.div_pos; lia|].
      apply Z.div_lt_upper_bound; lia.
    + constructor.
    + inversion F as [|? ? Ha F1]; subst. inversion F1 as [|? ? Hb F2]; subst.
      inversion F2 as [|? ? Hc F3]; subst.
      apply to_N_small. split; [apply Z.div_pos; [apply Z.div_pos|]; lia|].
      apply Z.div_lt_upper_bound; [lia|].
      apply Z.div_lt_upper_bound; lia.
    + constructor; [|constructor].
      apply to_N_small, Z.mod_pos_bound. lia.
    + inversion F as [|? ? Ha F1]; subst. inversion F1 as [|? ? Hb F2]; subst.
      inversion F2 as [|? ? Hc F3]; subst. inversion F3 as [|? ? Hd F4]; subst.
      apply to_N_small. split; [apply Z.div_pos; lia|].
      apply Z.div_lt_upper_bound; lia.
    + inversion F as [|? ? Ha F1]; subst. inversion F1 as [|? ? Hb F2]; subst.
      inversion F2 as [|? ? Hc F3]; subst. inversion F3 as [|? ? Hd F4]; subst.
      constructor; [apply to_N_small, Z.mod_pos_bound; lia|].
      constructor; [apply to_N_small, Z.mod_pos_bound; lia|].
      apply IH; [cbn [length] in L; lia | exact F4].
Qed.

Lemma atob_bytes s bin : atob s = Ok bin -> Forall (fun c => (c < 256)%N) bin.
Proof.
  unfold atob, forgiving_base64_decode.
  set (d1 := filter _ s).
  set (d2 := if (length d1 mod 4 =? 0)%nat then strip_padding d1 else d1).
  destruct (length d2 mod 4 =? 1)%nat; [discriminate|].
  destruct (base64_values d2) as [vs|] eqn:E; [|discriminate].
  intros H. injection H as <-.
  apply (decode_sextets_bytes (length vs)); [lia|].
  exact (base64_values_range d2 vs E).
Qed.

Lemma to_N_byte_of_N c : (c < 256)%N -> Byte.to_N (byte_of_N c) = c.
Proof.
  intros H. apply N2Z.inj. fold (Z_of_byte (byte_of_N c)).
  unfold byte_of_N. rewrite Z_of_byte_of_Z. apply Z.mod_small. lia.
Qed.

(** X11.  [base64ToUint8Array] loses nothing when it stores char codes
    into bytes: when [atob] accepts the text, the array has one byte per
    character of the decoded string and each byte is that character's
    code; when [atob] throws, so does [base64ToUint8Array]. *)
Theorem base64ToUint8Array_keeps_char_codes s :
  match atob s with
  | Ok bin =>
    exists bytes,
      base64ToUint8Array s = Ok bytes
      /\ length bytes = length bin
      /\ map Byte.to_N bytes = bin
  | Throw err => base64ToUint8Array s = Throw err
  end.
Proof.
  unfold base64ToUint8Array. destruct (atob s) as [bin|err] eqn:E; [|reflexivity].
  exists (map byte_of_N bin). split; [reflexivity|].
  split; [apply length_map|].
  pose proof (atob_bytes s bin E) as F. clear E.
  induction F as [|c bin Hc _ IH]; cbn [map]; [reflexivity|].
  rewrite to_N_byte_of_N by exact Hc. f_equal. exact IH.
Qed.

(** ** Registration order is layout order *)

Lemma firstn_local_section es rest :
  firstn (sum_sizes local_record_size es) (local_section es ++ rest)
  = local_section es.
Proof.
  rewrite <- length_local_section, firstn_app, Nat.sub_diag, firstn_all.
  cbn [firstn]. apply app_nil_r.
Qed.

(** X12.  A later registration never moves or changes what earlier ones
    laid out: after a successful [addFile], the local headers and payloads
    of the entries that were there are, byte for byte and at the same
    indices, what [createZip] gave before; the new entry's local header
    begins where the central directory began. *)
Theorem addFile_keeps_earlier_records name d isBase64 this this' :
  addFile name d isBase64 this = (Ok tt, this') ->
  exists buf buf',
    createZip this
    = (Ok {| blob_bytes := buf; blob_type := "application/zip" |}, this)
    /\ createZip this'
       = (Ok {| blob_bytes := buf'; blob_type := "application/zip" |}, this')
    /\ let n := central_record_index (entries this) 0 in
       firstn n buf' = firstn n buf
       /\ local_header_index (entries this') (length (entries this)) = n
       /\ forall i, (i <= length (entries this))%nat ->
            local_header_index (entries this') i
            = local_header_index (entries this) i.
Proof.
  intros H.
  destruct (addFile_outcome name d isBase64 this) as [(a & E)|(err & E)];
    rewrite E in H; [|discriminate].
  injection H as <-.
  exists (archive (entries this)), (archive (entries (push this (entry_of name a)))).
  split; [apply createZip_closed|]. split; [apply createZip_closed|].
  cbn [push entries]. set (es := entries this). set (e := entry_of name a).
  assert (Hn : central_record_index es 0 = sum_sizes local_record_size es).
  { unfold central_record_index. cbn [firstn]. unfold sum_sizes at 2.
    cbn [map list_sum fold_right]. lia. }
  cbv zeta. rewrite Hn. split; [|split].
  - unfold archive. rewrite local_section_app, <- !app_assoc.
    rewrite !firstn_local_section. reflexivity.
  - unfold local_header_index.
    rewrite firstn_app, Nat.sub_diag, firstn_all. cbn [firstn].
    rewrite app_nil_r. reflexivity.
  - intros i Hi. unfold local_header_index.
    rewrite firstn_app. replace (i - length es)%nat with O by lia.
    cbn [firstn]. rewrite app_nil_r. reflexivity.
Qed.

Lemma addFile_keeps_earlier_records_witness :
  exists buf buf',
    createZip one_page
    = (Ok {| blob_bytes := buf; blob_type := "application/zip" |}, one_page)
    /\ createZip (snd (addFile (str "notes.txt") (DataString (str "hi")) false one_page))
       = (Ok {| blob_bytes := buf'; blob_type := "application/zip" |},
          snd (addFile (str "notes.txt") (DataString (str "hi")) false one_page))
    /\ firstn 44 buf' = firstn 44 buf.
Proof.
  destruct (addFile_keeps_earlier_records (str "notes.txt") (DataString (str "hi"))
              false one_page
              (snd (addFile (str "notes.txt") (DataString (str "hi")) false one_page))
              eq_refl)
    as (buf & buf' & E & E' & F & _).
  exists buf, buf'. split; [exact E|]. split; [exact E' | exact F].
Defined.

(** ** Writes after the registration *)

(** X13.  The checksum is taken when the entry is added, the payload when
    the archive is built.  Take any program and any entry one of its steps
    adds; whatever the later steps do, writes to the array of the entry
    included, [createZip] called at the end succeeds and writes as the
    payload of the entry the bytes the array holds at that call, while the
    CRC-32 fields of both records hold the checksum of the bytes the array
    held when the entry was added.  The array has the same length at both
    times. *)
Theorem createZip_checksum_of_added_bytes before c later e :
  let s0 := Store.run before Store.new_CustomZipCreator in
  let s1 := Store.step c s0 in
  let s2 := Store.run later s1 in
  snd s1 = snd s0 ++ [e] ->
  exists added now blob s3,
    nth_error (fst s1) (Store.entry_data e) = Some added
    /\ nth_error (fst s2) (Store.entry_data e) = Some now
    /\ length now = length added
    /\ Store.createZip s2 = (Ok blob, s3)
    /\ let buf := blob_bytes blob in
       let vs := entries (Store.object_value s2) in
       let i := length (snd s0) in
       let L := local_header_index vs i in
       let C := central_record_index vs i in
       let n := length (TextEncoder_encode (Store.entry_filename e)) in
       slice buf (L + (30 + n)) (length now) = now
       /\ read_u32 buf (L + 14) = Some (calculateCRC32 added)
       /\ read_u32 buf (C + 16) = Some (calculateCRC32 added).
Proof.
  intros s0 s1 s2 H.
  destruct (ProgramFacts.entry_kept before c later e H)
    as (V & Hi & b & Hb & Hc & (b' & Hb' & Len) & _).
  fold s0 s1 s2 in V, Hi, Hb, Hb'.
  exists b, b'. destruct s2 as [h es]. cbn [fst snd] in Hi, Hb'.
  destruct (ProgramFacts.createZip_entry_fields h es _ e b' V Hi Hb')
    as (blob & t & E & _ & _ & P & l1 & c1 & _).
  exists blob, (h ++ t, es).
  split; [exact Hb|]. split; [exact Hb'|]. split; [exact Len|]. split; [exact E|].
  cbv zeta. pose proof (calculateCRC32_range b) as Hr.
  rewrite Hc, Z.mod_small in l1, c1 by lia.
  repeat split; assumption.
Qed.

Lemma createZip_checksum_of_added_bytes_witness :
  exists blob s3,
    Store.createZip (Store.run Store.write_after_add Store.new_CustomZipCreator)
    = (Ok blob, s3)
    /\ slice (blob_bytes blob) 31 4 = [xff; x02; x03; x04]
    /\ read_u32 (blob_bytes blob) 14 = Some 0xB63CFBCD
    /\ read_u32 (blob_bytes blob) 51 = Some 0xB63CFBCD
    /\ calculateCRC32 [xff; x02; x03; x04] = 0xD0859A59.
Proof.
  destruct (createZip_checksum_of_added_bytes
              [Store.NewArray [x01; x02; x03; x04]]
              (Store.AddFile (str "m") (Store.DataBytes 0%nat) false)
              [Store.Write 0%nat 0%nat 0xff]
              {| Store.entry_filename := str "m"; Store.entry_data := 0%nat;
                 Store.entry_crc32 := 0xB63CFBCD |})
    as (added & now & blob & s3 & Ha & Hn & _ & E & P & F1 & F2).
  - vm_compute. reflexivity.
  - vm_compute in Ha, Hn. injection Ha as <-. injection Hn as <-.
    exists blob, s3. split; [exact E|]. split; [exact P|].
    split; [exact F1|]. split; [exact F2|]. vm_compute. reflexivity.
Defined.
